(** * Connection manager of the peer-to-peer overlay

    A shallow embedding of [src/Connections/ConnectionManager.cpp] and of
    the collaborators it drives (edges, connections, the two connection
    tables, the edge factory and the RPC layer), followed by the theorems
    that settle the behaviour of its handlers.

    The manager is a Qt object living on one event loop.  Every member
    function becomes a computation in a small state monad over [World]:
    the manager's own members, the mutable part of the objects it holds
    pointers to, and an ordered record of every call it makes on a
    collaborator and of every signal it emits. *)

From stdpp Require Import base decidable countable strings list gmap fin_maps.

Set Default Proof Using "Type".

(** ** Plain data *)

(** Modelled from the spec: the class [Id] is declared outside
    [ConnectionManager.cpp].  A peer identifier is an opaque byte string
    compared by value; [GetByteArray] is the identity. *)
Abbreviation Id := string.

(** Modelled from the spec: the class [Address] is declared outside
    [ConnectionManager.cpp].  A transport locator; listeners are keyed by
    the scheme of the addresses they serve. *)
Record Address := mkAddress {
  addr_scheme : string;
  addr_location : string
}.

#[global] Instance Address_eq_dec : EqDecision Address.
Proof. solve_decision. Defined.

#[global] Instance Address_countable : Countable Address.
Proof.
  refine (inj_countable' (λ a, (addr_scheme a, addr_location a))
                         (λ p, mkAddress p.1 p.2) _).
  by intros [].
Defined.

(** Modelled from the spec: the class [Edge] is declared outside
    [ConnectionManager.cpp].  An [Edge *] handle: the pointer is [edge_id];
    [Outbound] and [GetRemoteAddress] never change during the life of an
    edge, so they travel with the handle.  The one mutable member, the
    closed flag, lives in the [World]. *)
Module Edge.
Record t := mk {
  edge_id : nat;
  Outbound : bool;
  GetRemoteAddress : Address
}.
End Edge.
Abbreviation Edge := Edge.t.

#[global] Instance Edge_eq_dec : EqDecision Edge.
Proof. solve_decision. Defined.

#[global] Instance Edge_countable : Countable Edge.
Proof.
  refine (inj_countable'
            (λ e, (Edge.edge_id e, Edge.Outbound e, Edge.GetRemoteAddress e))
            (λ p, Edge.mk p.1.1 p.1.2 p.2) _).
  by intros [].
Defined.

(** Modelled from the spec: the class [Connection] is declared outside
    [ConnectionManager.cpp].  A [Connection *] handle, as built by
    [new Connection(pedge, local_id, rem_id)]; [con_id] is the identity of
    the allocation.  The state of the connection lives in the [World]. *)
Module Connection.
Record t := mk {
  con_id : nat;
  GetEdge : Edge;
  GetLocalId : Id;
  GetRemoteId : Id
}.
End Connection.
Abbreviation Connection := Connection.t.

#[global] Instance Connection_eq_dec : EqDecision Connection.
Proof. solve_decision. Defined.

#[global] Instance Connection_countable : Countable Connection.
Proof.
  refine (inj_countable'
            (λ c, (Connection.con_id c, Connection.GetEdge c,
                   Connection.GetLocalId c, Connection.GetRemoteId c))
            (λ p, Connection.mk p.1.1.1 p.1.1.2 p.1.2 p.2) _).
  by intros [].
Defined.

(** Modelled from the spec: the states of a connection (section 3: Live,
    DisconnectRequested, Disconnected). *)
Inductive ConState := StLive | StDisconnectRequested | StDisconnected.

#[global] Instance ConState_eq_dec : EqDecision ConState.
Proof. solve_decision. Defined.

(** Modelled from the spec: the class [EdgeListener] is declared outside
    [ConnectionManager.cpp].  A transport, registered under the address
    scheme it serves. *)
Record EdgeListener := mkEdgeListener {
  el_id : nat;
  el_scheme : string
}.

#[global] Instance EdgeListener_eq_dec : EqDecision EdgeListener.
Proof. solve_decision. Defined.

(** ** RPC payloads and senders *)

(** The [QVariant] values a payload carries. *)
Inductive QVariant :=
| QInvalid
| QString (s : string)
| QByteArray (b : string)
| QStringList (l : list string).

#[global] Instance QVariant_eq_dec : EqDecision QVariant.
Proof. solve_decision. Defined.

(** [QVariant::toByteArray]: the bytes of a byte array or of a string, and
    an empty array for every value that does not convert. *)
Definition toByteArray (v : QVariant) : string :=
  match v with
  | QByteArray b => b
  | QString s => s
  | _ => ""
  end.

Definition isEmpty (b : string) : bool := bool_decide (b = "").

(** [QVariantMap]; reading an absent key yields an invalid [QVariant]. *)
Abbreviation QVariantMap := (gmap string QVariant).

Definition value (m : QVariantMap) (k : string) : QVariant :=
  default QInvalid (m !! k).

(** Modelled from the spec: the interface [ISender] is declared outside
    [ConnectionManager.cpp].  A sender is an edge, a connection or
    something else; this is all [dynamic_cast] tells the manager. *)
Inductive ISender :=
| SEdge (e : Edge)
| SCon (c : Connection)
| SOther (name : string).

#[global] Instance ISender_eq_dec : EqDecision ISender.
Proof. solve_decision. Defined.

Definition as_Edge (s : ISender) : option Edge :=
  match s with SEdge e => Some e | _ => None end.

Definition as_Connection (s : ISender) : option Connection :=
  match s with SCon c => Some c | _ => None end.

(** Modelled from the spec: the class [RpcRequest] is declared outside
    [ConnectionManager.cpp]: [RpcRequest{message: map, from: sender}]. *)
Record RpcRequest := mkRpcRequest {
  GetMessage : QVariantMap;
  GetFrom : ISender
}.

#[global] Instance RpcRequest_eq_dec : EqDecision RpcRequest.
Proof. solve_decision. Defined.

(** ** The connection table *)

(** Modelled from the spec: the class [ConnectionTable] is declared outside
    [ConnectionManager.cpp].  Its data model (a collection of edges keyed by
    edge identity, a map from peer id to connection and a reverse map from
    edge to connection) and its operations follow section 4.2 of the
    specification. *)
Module ConnectionTable.

Record t := mk {
  edges : list Edge;
  id_to_con : gmap string Connection;
  edge_to_con : gmap Edge Connection
}.

Definition empty : t := mk [] ∅ ∅.

(** Modelled from the spec: removal of one occurrence of an edge from the
    collection of edges. *)
Fixpoint remove_edge (e : Edge) (l : list Edge) : list Edge :=
  match l with
  | [] => []
  | x :: l' => if decide (x = e) then l' else x :: remove_edge e l'
  end.

(** Modelled from the spec: [add_edge(edge)]. *)
Definition AddEdge (e : Edge) (tab : t) : t :=
  mk (edges tab ++ [e]) (id_to_con tab) (edge_to_con tab).

(** Modelled from the spec: [remove_edge(edge) -> bool], false when the
    edge is not present. *)
Definition RemoveEdge (e : Edge) (tab : t) : bool * t :=
  (bool_decide (e ∈ edges tab),
   mk (remove_edge e (edges tab)) (id_to_con tab) (edge_to_con tab)).

(** Modelled from the spec: [get_edge(raw) -> edge?], the owning handle of
    a raw edge pointer. *)
Definition GetEdge (e : Edge) (tab : t) : option Edge :=
  if bool_decide (e ∈ edges tab) then Some e else None.

(** Modelled from the spec: [edges() -> sequence]. *)
Definition GetEdges (tab : t) : list Edge := edges tab.

(** Modelled from the spec: [add_connection(con)] enters [con] in the
    peer-id map and in the edge map. *)
Definition AddConnection (con : Connection) (tab : t) : t :=
  mk (edges tab)
     (<[Connection.GetRemoteId con := con]> (id_to_con tab))
     (<[Connection.GetEdge con := con]> (edge_to_con tab)).

(** Modelled from the spec: [get_connection(peer_id) -> con?]. *)
Definition GetConnection (id : Id) (tab : t) : option Connection :=
  id_to_con tab !! id.

(** Modelled from the spec: [get_connection_for(edge) -> con?]. *)
Definition GetConnectionFor (e : Edge) (tab : t) : option Connection :=
  edge_to_con tab !! e.

(** Modelled from the spec: [contains(con) -> bool].  A table holds a
    connection for as long as the connection is addressable through the
    edge map, that is until [remove_connection]. *)
Definition Contains (con : Connection) (tab : t) : bool :=
  bool_decide (edge_to_con tab !! Connection.GetEdge con = Some con).

(** Modelled from the spec: the connections of the table ("every
    connection in both tables", section 4.5).  A connection is in the
    table when the peer-id map returns it or when the edge map does: a
    connection told to disconnect has left the peer-id map and is still
    addressable via the edge map (section 4.2), and a connection whose
    entry in the edge map was taken by a later connection over the same
    edge is still returned for its peer id.  Each connection is listed
    once. *)
Definition GetConnections (tab : t) : list Connection :=
  remove_dups ((map_to_list (id_to_con tab)).*2 ++
               (map_to_list (edge_to_con tab)).*2).

(** Modelled from the spec: removal of [con] from a map, which leaves the
    entry of another connection under the same key alone. *)
Definition forget `{Countable K} (k : K) (con : Connection)
    (m : gmap K Connection) : gmap K Connection :=
  if bool_decide (m !! k = Some con) then delete k m else m.

(** Modelled from the spec: the table side of [disconnect(con)], out of
    the peer-id map and still in the edge map.  (The mark on the
    connection object is set by [CT_Disconnect], below, which is the whole
    operation.) *)
Definition Disconnect (con : Connection) (tab : t) : t :=
  mk (edges tab)
     (forget (Connection.GetRemoteId con) con (id_to_con tab))
     (edge_to_con tab).

(** Modelled from the spec: [remove_connection(con)]. *)
Definition RemoveConnection (con : Connection) (tab : t) : t :=
  mk (edges tab)
     (forget (Connection.GetRemoteId con) con (id_to_con tab))
     (forget (Connection.GetEdge con) con (edge_to_con tab)).

End ConnectionTable.
Abbreviation ConnectionTable := ConnectionTable.t.

#[global] Instance ConnectionTable_eq_dec : EqDecision ConnectionTable.
Proof. solve_decision. Defined.

(** ** The edge factory *)

(** Modelled from the spec: the class [EdgeFactory] is declared outside
    [ConnectionManager.cpp].  Section 4.1 of the specification: listeners
    are registered under their address scheme, [create_edge_to] succeeds
    when a registered listener claims the scheme of the address, and
    [stop] is idempotent. *)
Module EdgeFactory.

Record t := mk {
  listeners : gmap string EdgeListener;
  stopped : bool
}.

Definition empty : t := mk ∅ false.

(** Modelled from the spec: [add_listener(l)], keyed by address scheme. *)
Definition AddEdgeListener (el : EdgeListener) (f : t) : t :=
  mk (<[el_scheme el := el]> (listeners f)) (stopped f).

(** Modelled from the spec: the registered listener that claims the scheme
    of [addr], if any. *)
Definition handler (addr : Address) (f : t) : option EdgeListener :=
  listeners f !! addr_scheme addr.

(** Modelled from the spec: the listeners told to stop by a call of
    [stop()], which is idempotent. *)
Definition to_stop (f : t) : list EdgeListener :=
  if stopped f then [] else (map_to_list (listeners f)).*2.

(** Modelled from the spec: the factory after [stop()]. *)
Definition Stop (f : t) : t := mk (listeners f) true.

End EdgeFactory.
Abbreviation EdgeFactory := EdgeFactory.t.

#[global] Instance EdgeFactory_eq_dec : EqDecision EdgeFactory.
Proof. solve_decision. Defined.

(** ** Effects *)

(** The sinks an edge can be given: the manager only ever passes [&_rpc]. *)
Inductive ISink := RpcHandler.

#[global] Instance ISink_eq_dec : EqDecision ISink.
Proof. solve_decision. Defined.

(** The objects whose signals the manager connects to its slots. *)
Inductive QObj :=
| QEdge (e : Edge)
| QCon (c : Connection)
| QListener (el : EdgeListener).

#[global] Instance QObj_eq_dec : EqDecision QObj.
Proof. solve_decision. Defined.

(** The signals of [ConnectionManager]. *)
Inductive Signal :=
| NewConnection (con : Connection) (local : bool)
| ConnectionAttemptFailure (to : Address) (reason : string)
| Disconnected.

#[global] Instance Signal_eq_dec : EqDecision Signal.
Proof. solve_decision. Defined.

(** Every call the manager makes on a collaborator, and every [emit]. *)
Inductive Action :=
| RpcRegister (name : string)
| RpcUnregister (name : string)
| QObject_connect (src : QObj) (signal slot : string)
| SetSink (e : Edge) (sink : ISink)
| SendRequest (request : QVariantMap) (to : ISender) (callback : string)
| SendNotification (notification : QVariantMap) (to : ISender)
| Respond (request : RpcRequest) (response : QVariantMap)
| EdgeClose (e : Edge) (reason : string)
| ConnectionDisconnect (c : Connection)
| CreateEdgeTo (el : EdgeListener) (addr : Address)
| ListenerStop (el : EdgeListener)
| Emit (sig : Signal).

#[global] Instance Action_eq_dec : EqDecision Action.
Proof. solve_decision. Defined.

(** Qt logging: the level and what was streamed into the message. *)
Inductive QtMsgType := QtDebugMsg | QtWarningMsg | QtCriticalMsg.

Inductive LogPart :=
| LStr (s : string)
| LSender (s : ISender)
| LId (id : Id).

(** The members of [ConnectionManager]. *)
Record Manager := mkManager {
  _local_id : Id;
  _closed : bool;
  _con_tab : ConnectionTable;
  _rem_con_tab : ConnectionTable;
  _edge_factory : EdgeFactory
}.

(** What a slot connected to a signal of the manager can observe of the two
    tables at the moment of the [emit]. *)
Definition Tables : Type := ConnectionTable * ConnectionTable.

Record World := mkWorld {
  this : Manager;
  closed_edges : gset Edge;                  (* [Edge::IsClosed] *)
  con_states : gmap Connection ConState;     (* state of each connection *)
  next_con : nat;                            (* next allocation *)
  trace : list Action;
  emitted : list (Signal * Tables);
  logs : list (QtMsgType * list LogPart)
}.

Definition tables (w : World) : Tables :=
  (_con_tab (this w), _rem_con_tab (this w)).

(** ** The monad of member functions *)

Definition M (A : Type) : Type := World → A * World.

Definition ret {A} (a : A) : M A := λ w, (a, w).

Definition bind {A B} (m : M A) (k : A → M B) : M B :=
  λ w, let '(a, w') := m w in k a w'.

Definition exec {A} (m : M A) (w : World) : World := (m w).2.

Declare Scope cm_scope.
Delimit Scope cm_scope with cm.
Notation "x <- m ;; k" := (bind m (λ x, k))
  (at level 100, m at next level, right associativity) : cm_scope.
Notation "m ;; k" := (bind m (λ _, k))
  (at level 100, right associativity) : cm_scope.
Open Scope cm_scope.

Definition gets {A} (f : World → A) : M A := λ w, (f w, w).
Definition modify (f : World → World) : M unit := λ w, (tt, f w).
Definition skip : M unit := ret tt.

Definition with_this (f : Manager → Manager) (w : World) : World :=
  mkWorld (f (this w)) (closed_edges w) (con_states w) (next_con w)
          (trace w) (emitted w) (logs w).

Definition set_closed (b : bool) (m : Manager) : Manager :=
  mkManager (_local_id m) b (_con_tab m) (_rem_con_tab m) (_edge_factory m).

Definition on_con_tab (f : ConnectionTable → ConnectionTable) (m : Manager)
    : Manager :=
  mkManager (_local_id m) (_closed m) (f (_con_tab m)) (_rem_con_tab m)
            (_edge_factory m).

Definition on_rem_con_tab (f : ConnectionTable → ConnectionTable)
    (m : Manager) : Manager :=
  mkManager (_local_id m) (_closed m) (_con_tab m) (f (_rem_con_tab m))
            (_edge_factory m).

Definition on_edge_factory (f : EdgeFactory → EdgeFactory) (m : Manager)
    : Manager :=
  mkManager (_local_id m) (_closed m) (_con_tab m) (_rem_con_tab m)
            (f (_edge_factory m)).

(** A call on a collaborator. *)
Definition call (a : Action) : M unit :=
  modify (λ w, mkWorld (this w) (closed_edges w) (con_states w) (next_con w)
                       (trace w ++ [a]) (emitted w) (logs w)).

(** [emit sig]: slots run synchronously and see the tables as they are. *)
Definition emit (sig : Signal) : M unit :=
  modify (λ w, mkWorld (this w) (closed_edges w) (con_states w) (next_con w)
                       (trace w ++ [Emit sig])
                       (emitted w ++ [(sig, tables w)]) (logs w)).

Definition qlog (lvl : QtMsgType) (msg : list LogPart) : M unit :=
  modify (λ w, mkWorld (this w) (closed_edges w) (con_states w) (next_con w)
                       (trace w) (emitted w) (logs w ++ [(lvl, msg)])).

Definition qDebug := qlog QtDebugMsg.
Definition qWarning := qlog QtWarningMsg.
Definition qCritical := qlog QtCriticalMsg.

Fixpoint foreach {A} (l : list A) (body : A → M unit) : M unit :=
  match l with
  | [] => skip
  | x :: l' => body x ;; foreach l' body
  end.

(** ** Collaborators, as the manager uses them *)

(** Modelled from the spec: [Edge::IsClosed], the [closed] flag of the
    edge, which is monotonic (false to true). *)
Definition Edge_IsClosed (e : Edge) : M bool :=
  gets (λ w, bool_decide (e ∈ closed_edges w)).

(** Modelled from the spec: the [closed] flag of an edge is set. *)
Definition mark_closed (e : Edge) : M unit :=
  modify (λ w, mkWorld (this w) ({[e]} ∪ closed_edges w) (con_states w)
                       (next_con w) (trace w) (emitted w) (logs w)).

(** Modelled from the spec: [Edge::Close(reason)] sets the flag; the
    [Closed] signal is delivered later by the transport, as an event of
    its own (section 5: the manager resumes work when the transport
    delivers the next event). *)
Definition Edge_Close (e : Edge) (reason : string) : M unit :=
  call (EdgeClose e reason) ;;
  mark_closed e.

(** Modelled from the spec: the state of a connection is set. *)
Definition set_con_state (con : Connection) (st : ConState) : M unit :=
  modify (λ w, mkWorld (this w) (closed_edges w) (<[con := st]> (con_states w))
                       (next_con w) (trace w) (emitted w) (logs w)).

(** Modelled from the spec: [new Connection(pedge, local_id, rem_id)], a
    fresh connection, created live. *)
Definition new_Connection (pedge : Edge) (local_id rem_id : Id)
    : M Connection :=
  n <- gets next_con ;;
  let con := Connection.mk n pedge local_id rem_id in
  modify (λ w, mkWorld (this w) (closed_edges w) (con_states w) (S n)
                       (trace w) (emitted w) (logs w)) ;;
  set_con_state con StLive ;;
  ret con.

Definition con_tab_do (f : ConnectionTable → ConnectionTable) : M unit :=
  modify (with_this (on_con_tab f)).

Definition rem_con_tab_do (f : ConnectionTable → ConnectionTable) : M unit :=
  modify (with_this (on_rem_con_tab f)).

(** Modelled from the spec: [ConnectionTable::Disconnect(con)] "marks the
    connection DisconnectRequested and removes it from the PeerId map but
    keeps it addressable via the edge map". *)
Definition CT_Disconnect (tab_do : (ConnectionTable → ConnectionTable) → M unit)
    (con : Connection) : M unit :=
  set_con_state con StDisconnectRequested ;;
  tab_do (ConnectionTable.Disconnect con).

(** Modelled from the spec: [EdgeFactory::CreateEdgeTo] (section 4.1)
    "returns true if some registered listener claims the address scheme";
    the dial is a call on that listener. *)
Definition EdgeFactory_CreateEdgeTo (addr : Address) : M bool :=
  f <- gets (λ w, _edge_factory (this w)) ;;
  match EdgeFactory.handler addr f with
  | Some el => call (CreateEdgeTo el addr) ;; ret true
  | None => ret false
  end.

(** Modelled from the spec: [EdgeFactory::Stop] (section 4.1) "instructs
    all listeners to cease producing new edges". *)
Definition EdgeFactory_Stop : M unit :=
  f <- gets (λ w, _edge_factory (this w)) ;;
  foreach (EdgeFactory.to_stop f) (λ el, call (ListenerStop el)) ;;
  modify (with_this (on_edge_factory EdgeFactory.Stop)).

(** ** [ConnectionManager.cpp] *)

Definition method (name : string) : QVariantMap :=
  <["method" := QString name]> ∅.

(** The constructor: no edge, no connection, not closed, four RPC methods
    registered. *)
Definition ConnectionManager (local_id : Id) : World :=
  mkWorld (mkManager local_id false ConnectionTable.empty
                     ConnectionTable.empty EdgeFactory.empty)
          ∅ ∅ 0
          [RpcRegister "CM::Inquire"; RpcRegister "CM::Close";
           RpcRegister "CM::Connect"; RpcRegister "CM::Disconnect"]
          [] [].

Definition AddEdgeListener (el : EdgeListener) : M unit :=
  closed <- gets (λ w, _closed (this w)) ;;
  if closed then
    qWarning [LStr "Attempting to add an EdgeListener after calling Disconnect."]
  else
    modify (with_this (on_edge_factory (EdgeFactory.AddEdgeListener el))) ;;
    call (QObject_connect (QListener el) "NewEdge(Edge *)"
            "HandleNewEdge(Edge *)") ;;
    call (QObject_connect (QListener el)
            "EdgeCreationFailure(const Address &, const QString &)"
            "HandleEdgeCreationFailure(const Address &, const QString&)").

Definition ConnectTo (addr : Address) : M unit :=
  closed <- gets (λ w, _closed (this w)) ;;
  if closed then
    qWarning [LStr "Attempting to Connect to a remote node after calling Disconnect."]
  else
    created <- EdgeFactory_CreateEdgeTo addr ;;
    if negb created then
      emit (ConnectionAttemptFailure addr "No EdgeListener to handle request")
    else skip.

Definition HandleDisconnect (con : Connection) : M unit :=
  held <- gets (λ w, ConnectionTable.Contains con (_con_tab (this w))) ;;
  (if held then CT_Disconnect con_tab_do con
   else CT_Disconnect rem_con_tab_do con) ;;
  call (SendNotification (method "CM::Disconnect") (SCon con)) ;;
  qDebug [LStr "Handle disconnect on: "; LSender (SCon con)] ;;
  Edge_Close (Connection.GetEdge con) "Local disconnect request".

(** Modelled from the spec: [Connection::Disconnect()] raises
    [CalledDisconnect(con)], which "triggers the usual
    on_connection_called_disconnect path": the slot [HandleDisconnect]
    that [Inquired] and [Connect] attach to every connection they create
    runs before the call returns. *)
Definition Connection_Disconnect (con : Connection) : M unit :=
  call (ConnectionDisconnect con) ;;
  HandleDisconnect con.

Definition close_if_open (edge : Edge) : M unit :=
  is_closed <- Edge_IsClosed edge ;;
  if negb is_closed then Edge_Close edge "Disconnecting" else skip.

Definition Disconnect : M unit :=
  closed <- gets (λ w, _closed (this w)) ;;
  if closed then
    qWarning [LStr "Called Disconnect twice on ConnectionManager."]
  else
    modify (with_this (set_closed true)) ;;
    emit_dis <- gets (λ w,
      bool_decide (length (ConnectionTable.GetEdges (_con_tab (this w))) = 0)
      && bool_decide
           (length (ConnectionTable.GetEdges (_rem_con_tab (this w))) = 0)) ;;
    cons <- gets (λ w, ConnectionTable.GetConnections (_con_tab (this w))) ;;
    foreach cons Connection_Disconnect ;;
    rem_cons <- gets (λ w,
      ConnectionTable.GetConnections (_rem_con_tab (this w))) ;;
    foreach rem_cons Connection_Disconnect ;;
    edges <- gets (λ w, ConnectionTable.GetEdges (_con_tab (this w))) ;;
    foreach edges close_if_open ;;
    rem_edges <- gets (λ w, ConnectionTable.GetEdges (_rem_con_tab (this w))) ;;
    foreach rem_edges close_if_open ;;
    EdgeFactory_Stop ;;
    if emit_dis then emit Disconnected else skip.

Definition HandleNewEdge (edge : Edge) : M unit :=
  call (SetSink edge RpcHandler) ;;
  call (QObject_connect (QEdge edge) "Closed(const Edge *, const QString &)"
          "HandleEdgeClose(const Edge *, const QString &)") ;;
  if negb (Edge.Outbound edge) then
    rem_con_tab_do (ConnectionTable.AddEdge edge)
  else
    con_tab_do (ConnectionTable.AddEdge edge) ;;
    local_id <- gets (λ w, _local_id (this w)) ;;
    let request :=
      <["peer_id" := QByteArray local_id]> (method "CM::Inquire") in
    call (SendRequest request (SEdge edge) "Inquired").

Definition HandleEdgeCreationFailure (to : Address) (reason : string)
    : M unit :=
  emit (ConnectionAttemptFailure to reason).

Definition Inquire (request : RpcRequest) : M unit :=
  local_id <- gets (λ w, _local_id (this w)) ;;
  let response : QVariantMap := <["peer_id" := QByteArray local_id]> ∅ in
  call (Respond request response).

Definition Inquired (response : RpcRequest) : M unit :=
  let from := GetFrom response in
  match as_Edge from with
  | None =>
      qWarning [LStr "Received an inquired from a non-Edge: "; LSender from]
  | Some edge =>
    if negb (Edge.Outbound edge) then
      qWarning [LStr "We would never make an inquire call on an incoming edge: ";
                LSender from]
    else
      let brem_id := toByteArray (value (GetMessage response) "peer_id") in
      if isEmpty brem_id then
        qWarning [LStr "Invalid ConnectionEstablished, no id"]
      else
        let rem_id : Id := brem_id in
        local_id <- gets (λ w, _local_id (this w)) ;;
        if bool_decide (rem_id = local_id) then
          qDebug [LStr "Attempting to connect to ourself"] ;;
          call (SendNotification (method "CM::Close") (SEdge edge)) ;;
          Edge_Close edge "Attempting to connect to ourself" ;;
          emit (ConnectionAttemptFailure (Edge.GetRemoteAddress edge)
                  "Attempting to connect to ourself")
        else
          known <- gets (λ w,
            ConnectionTable.GetConnection rem_id (_con_tab (this w))) ;;
          if bool_decide (known ≠ None) then
            qWarning [LStr "Already have a connection to: "; LId rem_id;
                      LStr " closing Edge: "; LSender (SEdge edge)] ;;
            call (SendNotification (method "CM::Close") (SEdge edge)) ;;
            Edge_Close edge "Duplicate connection" ;;
            emit (ConnectionAttemptFailure (Edge.GetRemoteAddress edge)
                    "Duplicate connection")
          else
            found <- gets (λ w,
              ConnectionTable.GetEdge edge (_con_tab (this w))) ;;
            match found with
            | None =>
                qCritical [LStr "An edge attempted to create a connection, but there is no record of it";
                           LSender (SEdge edge)]
            | Some pedge =>
                let notification :=
                  <["peer_id" := QByteArray local_id]> (method "CM::Connect") in
                call (SendNotification notification (SEdge edge)) ;;
                qDebug [LId local_id; LStr ": Creating new connection to ";
                        LId rem_id] ;;
                con <- new_Connection pedge local_id rem_id ;;
                con_tab_do (ConnectionTable.AddConnection con) ;;
                call (QObject_connect (QCon con) "CalledDisconnect(Connection *)"
                        "HandleDisconnect(Connection *)") ;;
                call (QObject_connect (QCon con)
                        "Disconnected(Connection *, const QString &)"
                        "HandleDisconnected(Connection *, const QString &)") ;;
                emit (NewConnection con true)
            end
  end.

Definition Connect (notification : RpcRequest) : M unit :=
  match as_Edge (GetFrom notification) with
  | None =>
      qWarning [LStr "Connection attempt not from an Edge: ";
                LSender (GetFrom notification)]
  | Some edge =>
    let brem_id := toByteArray (value (GetMessage notification) "peer_id") in
    if isEmpty brem_id then
      qWarning [LStr "Invalid ConnectionEstablished, no id"]
    else
      let rem_id : Id := brem_id in
      old_con <- gets (λ w,
        ConnectionTable.GetConnection rem_id (_rem_con_tab (this w))) ;;
      match old_con with
      | Some old => Connection_Disconnect old
      | None => skip
      end ;;
      found <- gets (λ w,
        ConnectionTable.GetEdge edge (_rem_con_tab (this w))) ;;
      match found with
      | None =>
          qCritical [LStr "An edge attempted to create a connection, but there is no record of it";
                     LSender (SEdge edge)]
      | Some pedge =>
          local_id <- gets (λ w, _local_id (this w)) ;;
          con <- new_Connection pedge local_id rem_id ;;
          rem_con_tab_do (ConnectionTable.AddConnection con) ;;
          qDebug [LId local_id; LStr ": Handle new connection from ";
                  LId rem_id] ;;
          call (QObject_connect (QCon con) "CalledDisconnect(Connection *)"
                  "HandleDisconnect(Connection *)") ;;
          call (QObject_connect (QCon con)
                  "Disconnected(Connection *, const QString &)"
                  "HandleDisconnected(Connection *, const QString &)") ;;
          emit (NewConnection con false)
      end
  end.

Definition Close (notification : RpcRequest) : M unit :=
  match as_Edge (GetFrom notification) with
  | None =>
      qWarning [LStr "Connection attempt Edge close not from an Edge: ";
                LSender (GetFrom notification)]
  | Some edge => Edge_Close edge "Closed from remote peer"
  end.

Definition HandleDisconnected (con : Connection) (reason : string) : M unit :=
  qDebug [LStr "Edge disconnected now removing Connection: ";
          LSender (SCon con); LStr ", because: "; LStr reason] ;;
  if Edge.Outbound (Connection.GetEdge con) then
    con_tab_do (ConnectionTable.RemoveConnection con)
  else
    rem_con_tab_do (ConnectionTable.RemoveConnection con).

(** [ConnectionManager::Disconnect(RpcRequest &)], the handler of the
    [CM::Disconnect] notification. *)
Definition Disconnect_rpc (notification : RpcRequest) : M unit :=
  match as_Connection (GetFrom notification) with
  | None =>
      qWarning [LStr "Received DisconnectResponse from a non-connection: ";
                LSender (GetFrom notification)]
  | Some con =>
      qDebug [LStr "Received disconnect for: "; LSender (SCon con)] ;;
      held <- gets (λ w,
        ConnectionTable.Contains con (_rem_con_tab (this w))) ;;
      (if held then CT_Disconnect rem_con_tab_do con
       else CT_Disconnect con_tab_do con) ;;
      Edge_Close (Connection.GetEdge con) "Remote disconnect"
  end.

Definition HandleEdgeClose (edge : Edge) (reason : string) : M unit :=
  qDebug [LStr "Edge closed: "; LSender (SEdge edge)] ;;
  removed <- (if Edge.Outbound edge then
      r <- gets (λ w, ConnectionTable.RemoveEdge edge (_con_tab (this w))) ;;
      con_tab_do (λ _, r.2) ;; ret r.1
    else
      r <- gets (λ w, ConnectionTable.RemoveEdge edge (_rem_con_tab (this w))) ;;
      rem_con_tab_do (λ _, r.2) ;; ret r.1) ;;
  (if negb removed then
     qWarning [LStr "Edge closed but no Edge found in CT:";
               LSender (SEdge edge)]
   else skip) ;;
  closed <- gets (λ w, _closed (this w)) ;;
  if negb closed then skip
  else
    empty <- gets (λ w,
      bool_decide (length (ConnectionTable.GetEdges (_con_tab (this w))) = 0)
      && bool_decide
           (length (ConnectionTable.GetEdges (_rem_con_tab (this w))) = 0)) ;;
    if empty then emit Disconnected else skip.

(** ** Events *)

(** What the event loop delivers to the manager: calls on its public
    interface, signals of listeners, edges and connections, and RPC
    messages. *)
Inductive Event :=
| CallAddEdgeListener (el : EdgeListener)
| CallConnectTo (addr : Address)
| CallDisconnect
| NewEdge (edge : Edge)
| EdgeCreationFailure (to : Address) (reason : string)
| Closed (edge : Edge) (reason : string)
| CalledDisconnect (con : Connection)
| ConDisconnected (con : Connection) (reason : string)
| CM_Inquire (request : RpcRequest)
| CM_Inquired (response : RpcRequest)
| CM_Close (notification : RpcRequest)
| CM_Connect (notification : RpcRequest)
| CM_Disconnect (notification : RpcRequest).

(** An edge that reports [Closed] is closed; a connection that reports
    [Disconnected] has reached its terminal state. *)
Definition dispatch (ev : Event) : M unit :=
  match ev with
  | CallAddEdgeListener el => AddEdgeListener el
  | CallConnectTo addr => ConnectTo addr
  | CallDisconnect => Disconnect
  | NewEdge edge => HandleNewEdge edge
  | EdgeCreationFailure to reason => HandleEdgeCreationFailure to reason
  | Closed edge reason => mark_closed edge ;; HandleEdgeClose edge reason
  | CalledDisconnect con => HandleDisconnect con
  | ConDisconnected con reason =>
      set_con_state con StDisconnected ;; HandleDisconnected con reason
  | CM_Inquire request => Inquire request
  | CM_Inquired response => Inquired response
  | CM_Close notification => Close notification
  | CM_Connect notification => Connect notification
  | CM_Disconnect notification => Disconnect_rpc notification
  end.

Definition run (evs : list Event) : M unit := foreach evs dispatch.

(** [~ConnectionManager]. *)
Definition ConnectionManager_destructor : M unit :=
  call (RpcUnregister "CM::Inquire") ;;
  call (RpcUnregister "CM::Close") ;;
  call (RpcUnregister "CM::Connect") ;;
  call (RpcUnregister "CM::Disconnect").

(** ** Vocabulary of the statements *)

(** The payloads of the handshake. *)
Definition Inquire_msg (local_id : Id) : QVariantMap :=
  <["peer_id" := QByteArray local_id]> (method "CM::Inquire").

Definition Inquire_response (local_id : Id) : QVariantMap :=
  <["peer_id" := QByteArray local_id]> ∅.

Definition Connect_msg (local_id : Id) : QVariantMap :=
  <["peer_id" := QByteArray local_id]> (method "CM::Connect").

(** The two slots attached to a fresh connection. *)
Definition con_signals (con : Connection) : list Action :=
  [QObject_connect (QCon con) "CalledDisconnect(Connection *)"
     "HandleDisconnect(Connection *)";
   QObject_connect (QCon con) "Disconnected(Connection *, const QString &)"
     "HandleDisconnected(Connection *, const QString &)"].

(** The subscription to the [Closed] signal of an adopted edge. *)
Definition subscribe_Closed (edge : Edge) : Action :=
  QObject_connect (QEdge edge) "Closed(const Edge *, const QString &)"
    "HandleEdgeClose(const Edge *, const QString &)".

(** What [HandleDisconnect] does on the wire for one connection. *)
Definition local_disconnect (con : Connection) : list Action :=
  [SendNotification (method "CM::Disconnect") (SCon con);
   EdgeClose (Connection.GetEdge con) "Local disconnect request"].

(** What a call of [con->Disconnect()] makes the manager do. *)
Definition disconnected (con : Connection) : list Action :=
  ConnectionDisconnect con :: local_disconnect con.

(** Nothing but the log differs between [w] and [w']. *)
Definition only_logs (w w' : World) : Prop :=
  this w' = this w ∧ closed_edges w' = closed_edges w ∧
  con_states w' = con_states w ∧ next_con w' = next_con w ∧
  trace w' = trace w ∧ emitted w' = emitted w.

(** One warning was logged, and nothing else happened. *)
Definition dropped (w w' : World) : Prop :=
  only_logs w w' ∧ ∃ msg, logs w' = logs w ++ [(QtWarningMsg, msg)].

(** An outbound edge was turned down: a notification whose method is
    [CM::Close] sent over it, the edge closed and the failure reported
    with the same reason, tables and connections as they were. *)
Definition refused (w w' : World) (edge : Edge) (reason : string) : Prop :=
  trace w' = trace w ++
    [SendNotification (method "CM::Close") (SEdge edge);
     EdgeClose edge reason;
     Emit (ConnectionAttemptFailure (Edge.GetRemoteAddress edge) reason)] ∧
  value (method "CM::Close") "method" = QString "CM::Close" ∧
  emitted w' = emitted w ++
    [(ConnectionAttemptFailure (Edge.GetRemoteAddress edge) reason, tables w)] ∧
  this w' = this w ∧
  next_con w' = next_con w ∧
  con_states w' = con_states w ∧
  closed_edges w' = {[edge]} ∪ closed_edges w.

(** The edges of [es] that [Disconnect] still has to close, given the set
    of edges already closed: an edge is closed once. *)
Fixpoint open_edges (closed : gset Edge) (es : list Edge) : list Edge :=
  match es with
  | [] => []
  | e :: es' =>
      if decide (e ∈ closed) then open_edges closed es'
      else e :: open_edges ({[e]} ∪ closed) es'
  end.

(** The emissions of [Disconnected], in the trace and among the views. *)
Definition is_Disconnected (a : Action) : bool :=
  match a with Emit Disconnected => true | _ => false end.

Definition is_Disconnected_view (st : Signal * Tables) : bool :=
  match st.1 with Disconnected => true | _ => false end.

(** How often [Disconnected] was emitted. *)
Definition Disconnected_count (w : World) : nat :=
  length (List.filter is_Disconnected (trace w)).

(** Both tables are empty of edges. *)
Definition no_edges (t : Tables) : Prop :=
  ConnectionTable.GetEdges t.1 = [] ∧ ConnectionTable.GetEdges t.2 = [].

(** *** The contract of the environment

    What the transports promise (sections 4.1, 5 and 6 of the
    specification): only the edges the manager adopted are connected to
    [HandleEdgeClose], and an adopted edge raises [Closed] once; listeners
    told to stop produce no new edge. *)
Record Env := mkEnv {
  env_open : list Edge;       (* adopted, [Closed] not yet reported *)
  env_stopped : bool          (* [Disconnect()] has stopped the listeners *)
}.

Definition Env0 : Env := mkEnv [] false.

Definition allowed (env : Env) (ev : Event) : bool :=
  match ev with
  | NewEdge edge => negb (env_stopped env)
  | Closed edge _ => bool_decide (edge ∈ env_open env)
  | _ => true
  end.

Definition env_step (env : Env) (ev : Event) : Env :=
  match ev with
  | NewEdge edge => mkEnv (env_open env ++ [edge]) (env_stopped env)
  | Closed edge _ =>
      mkEnv (ConnectionTable.remove_edge edge (env_open env)) (env_stopped env)
  | CallDisconnect => mkEnv (env_open env) true
  | _ => env
  end.

Fixpoint admissible_from (env : Env) (evs : list Event) : bool :=
  match evs with
  | [] => true
  | ev :: evs' => allowed env ev && admissible_from (env_step env ev) evs'
  end.

Definition admissible (evs : list Event) : Prop :=
  admissible_from Env0 evs = true.

(** *** Concrete nodes and messages used to exercise the statements *)

Definition mem_B : Address := mkAddress "mem" "B".
Definition mem_C : Address := mkAddress "mem" "C".
Definition E1 : Edge := Edge.mk 1 true mem_B.
Definition E2 : Edge := Edge.mk 2 true mem_B.
Definition E3 : Edge := Edge.mk 3 false mem_C.
Definition mem_listener : EdgeListener := mkEdgeListener 0 "mem".

Definition peer_id_msg (id : Id) : QVariantMap :=
  <["peer_id" := QByteArray id]> ∅.

(** Node [A] after dialing [mem://B]: edge [E1] adopted, [Inquire] sent. *)
Definition node_dialing : World :=
  exec (run [CallAddEdgeListener mem_listener; CallConnectTo mem_B; NewEdge E1])
       (ConnectionManager "A").

(** Node [A] connected to [B] over [E1], with a second edge [E2] to [B]. *)
Definition node_connected : World :=
  exec (run [CM_Inquired (mkRpcRequest (peer_id_msg "B") (SEdge E1));
             NewEdge E2])
       node_dialing.

(** Node [A] with the inbound edge [E3] parked. *)
Definition node_listening : World :=
  exec (run [NewEdge E3]) (ConnectionManager "A").

(** Node [A] with an outbound connection to [B] and an inbound one from
    [C]. *)
Definition node_two_connections : World :=
  exec (run [NewEdge E3; CM_Connect (mkRpcRequest (peer_id_msg "C") (SEdge E3))])
       node_connected.

(** *** Notions used in the proofs *)

(** The world in which [Connect] creates the new connection: the one left
    by the disconnection of the connection the inbound table held for the
    same peer, if any. *)
Definition superseded (rem_id : Id) (w : World) : World :=
  match ConnectionTable.GetConnection rem_id (_rem_con_tab (this w)) with
  | Some old => exec (Connection_Disconnect old) w
  | None => w
  end.

(** A computation that neither reads nor writes [_closed]: it runs the
    same whatever the flag is, and leaves the flag as it found it. *)
Definition closed_blind {A} (m : M A) : Prop :=
  ∀ b w, m (with_this (set_closed b) w)
         = ((m w).1, with_this (set_closed b) (m w).2).

(** The states of connections after the connections [cs] were marked. *)
Definition mark_all (cs : list Connection) (m : gmap Connection ConState)
    : gmap Connection ConState :=
  foldl (λ m c, <[c := StDisconnectRequested]> m) m cs.

(** What disconnecting the connections [cs], one after the other, does to
    the world. *)
Definition torn_down (cs : list Connection) (w w' : World) : Prop :=
  trace w' = trace w ++ (cs ≫= disconnected) ∧
  closed_edges w' = list_to_set (Connection.GetEdge <$> cs) ∪ closed_edges w ∧
  con_states w' = mark_all cs (con_states w) ∧
  emitted w' = emitted w ∧
  next_con w' = next_con w ∧
  _closed (this w') = _closed (this w) ∧
  _local_id (this w') = _local_id (this w) ∧
  _edge_factory (this w') = _edge_factory (this w) ∧
  ConnectionTable.edges (_con_tab (this w')) =
    ConnectionTable.edges (_con_tab (this w)) ∧
  ConnectionTable.edges (_rem_con_tab (this w')) =
    ConnectionTable.edges (_rem_con_tab (this w)) ∧
  ConnectionTable.edge_to_con (_con_tab (this w')) =
    ConnectionTable.edge_to_con (_con_tab (this w)) ∧
  ConnectionTable.edge_to_con (_rem_con_tab (this w')) =
    ConnectionTable.edge_to_con (_rem_con_tab (this w)).

(** The connections that [Disconnect()] visits, in order: those of the
    outbound table at the call, then those of the inbound table once the
    first have been told to disconnect (the flag is set before the
    loops). *)
Definition visited (w : World) : list Connection :=
  let w1 := with_this (set_closed true) w in
  let cons := ConnectionTable.GetConnections (_con_tab (this w1)) in
  cons ++ ConnectionTable.GetConnections
            (_rem_con_tab (this (exec (foreach cons Connection_Disconnect) w1))).

(** The closing of an edge by [Disconnect()]. *)
Definition close_Disconnecting (e : Edge) : Action :=
  EdgeClose e "Disconnecting".

(** What the argument looks at: the flag, the edges of the two tables and
    the emissions of [Disconnected]. *)
Definition observed (w : World) :=
  (_closed (this w),
   ConnectionTable.edges (_con_tab (this w)),
   ConnectionTable.edges (_rem_con_tab (this w)),
   List.filter is_Disconnected (trace w),
   List.filter is_Disconnected_view (emitted w)).

(** A computation that leaves an observation of the world as it was. *)
Definition preserves {A O} (obs : World → O) (m : M A) : Prop :=
  ∀ w, obs (m w).2 = obs w.

(** A computation that changes nothing of what [observed] looks at. *)
Abbreviation quiet := (preserves observed).

(** The edges and the connections registered in the two tables. *)
Definition shape (w : World) :=
  (ConnectionTable.edges (_con_tab (this w)),
   ConnectionTable.edges (_rem_con_tab (this w)),
   ConnectionTable.edge_to_con (_con_tab (this w)),
   ConnectionTable.edge_to_con (_rem_con_tab (this w))).

(** The tables of a manager are well formed when the outbound table holds
    outbound edges only and the inbound table inbound edges only, and
    each connection is registered under its own edge, in the table of
    that edge. *)
Definition well_formed (w : World) : Prop :=
  let '(out_edges, in_edges, out_cons, in_cons) := shape w in
  (∀ e, e ∈ out_edges → Edge.Outbound e = true) ∧
  (∀ e, e ∈ in_edges → Edge.Outbound e = false) ∧
  (∀ e c, out_cons !! e = Some c →
     Connection.GetEdge c = e ∧ Edge.Outbound e = true) ∧
  (∀ e c, in_cons !! e = Some c →
     Connection.GetEdge c = e ∧ Edge.Outbound e = false).

(** The manager after [HandleEdgeClose] took the edge out of its table. *)
Definition edge_removed (edge : Edge) (m : Manager) : Manager :=
  if Edge.Outbound edge
  then on_con_tab (λ t, (ConnectionTable.RemoveEdge edge t).2) m
  else on_rem_con_tab (λ t, (ConnectionTable.RemoveEdge edge t).2) m.

(** The test that makes [HandleEdgeClose] emit [Disconnected]. *)
Definition drained (m : Manager) : bool :=
  _closed m
  && bool_decide (ConnectionTable.GetEdges (_con_tab m) = [])
  && bool_decide (ConnectionTable.GetEdges (_rem_con_tab m) = []).

(** The outbound and the inbound edges of a list, in order. *)
Definition outbound_of (l : list Edge) : list Edge :=
  List.filter Edge.Outbound l.

Definition inbound_of (l : list Edge) : list Edge :=
  List.filter (λ e, negb (Edge.Outbound e)) l.

(** The manager and the environment agree on the open edges, and
    [Disconnected] has been emitted at most once, with nothing left open
    after it. *)
Record Inv (env : Env) (w : World) : Prop := mkInv {
  inv_closed : _closed (this w) = env_stopped env;
  inv_out :
    ConnectionTable.edges (_con_tab (this w)) = outbound_of (env_open env);
  inv_in :
    ConnectionTable.edges (_rem_con_tab (this w)) = inbound_of (env_open env);
  inv_count :
    Disconnected_count w = 0 ∨
    (Disconnected_count w = 1 ∧ env_stopped env = true ∧ env_open env = []);
  inv_views :
    Forall (λ st, no_edges st.2)
      (List.filter is_Disconnected_view (emitted w))
}.

(** The environment after a sequence of events. *)
Definition env_after (env : Env) (evs : list Event) : Env :=
  foldl env_step env evs.

(** *** Notions used by the further properties *)

(** One [qCritical] was logged, and nothing else happened. *)
Definition reported_critical (w w' : World) : Prop :=
  only_logs w w' ∧ ∃ msg, logs w' = logs w ++ [(QtCriticalMsg, msg)].

(** Kinds of actions, to follow them along a trace. *)
Definition is_NewConnection (a : Action) : bool :=
  match a with Emit (NewConnection _ _) => true | _ => false end.

Definition is_CreateEdgeTo (a : Action) : bool :=
  match a with CreateEdgeTo _ _ => true | _ => false end.

Definition is_SendRequest (a : Action) : bool :=
  match a with SendRequest _ _ _ => true | _ => false end.

Definition is_registration (a : Action) : bool :=
  match a with RpcRegister _ | RpcUnregister _ => true | _ => false end.

(** A view of the manager together with the actions of one kind. *)
Definition filtered {G} (g : Manager → G) (p : Action → bool) (w : World)
    : G * list Action :=
  (g (this w), List.filter p (trace w)).

(** The [CM::Inquire] requests that a sequence of events calls for: one
    for each outbound edge handed over, in order. *)
Definition inquiries (local_id : Id) (evs : list Event) : list Action :=
  evs ≫= λ ev,
    match ev with
    | NewEdge edge =>
        if Edge.Outbound edge
        then [SendRequest (Inquire_msg local_id) (SEdge edge) "Inquired"]
        else []
    | _ => []
    end.

(** The RPC methods registered and not unregistered by a trace. *)
Definition registered (tr : list Action) : gset string :=
  foldl (λ names a,
           match a with
           | RpcRegister name => {[name]} ∪ names
           | RpcUnregister name => names ∖ {[name]}
           | _ => names
           end) ∅ tr.

(** What holds of a connection announced by [NewConnection(con, local)]. *)
Definition announced_ok (local_id : Id) (a : Action) : Prop :=
  match a with
  | Emit (NewConnection con local) =>
      Edge.Outbound (Connection.GetEdge con) = local ∧
      Connection.GetLocalId con = local_id ∧
      Connection.GetRemoteId con ≠ "" ∧
      (local = true → Connection.GetRemoteId con ≠ local_id)
  | _ => True
  end.

(** The manager has the given id, and all it has announced is as
    [announced_ok] tells. *)
Definition sound (local_id : Id) (w : World) : Prop :=
  _local_id (this w) = local_id ∧
  Forall (announced_ok local_id) (trace w).

(** The peer-id maps are keyed by the remote id of the connection they
    return, and a connection they return is over an edge of the direction
    of its table. *)
Definition ids_ok (w : World) : Prop :=
  (∀ id c, ConnectionTable.id_to_con (_con_tab (this w)) !! id = Some c →
     Connection.GetRemoteId c = id ∧
     Edge.Outbound (Connection.GetEdge c) = true) ∧
  (∀ id c, ConnectionTable.id_to_con (_rem_con_tab (this w)) !! id = Some c →
     Connection.GetRemoteId c = id ∧
     Edge.Outbound (Connection.GetEdge c) = false).

(** The peer-id maps of [w'] return nothing that those of [w] did not. *)
Definition ids_within (w w' : World) : Prop :=
  (∀ id c, ConnectionTable.id_to_con (_con_tab (this w')) !! id = Some c →
     ConnectionTable.id_to_con (_con_tab (this w)) !! id = Some c) ∧
  (∀ id c, ConnectionTable.id_to_con (_rem_con_tab (this w')) !! id = Some c →
     ConnectionTable.id_to_con (_rem_con_tab (this w)) !! id = Some c).

(** A computation that enters nothing in the peer-id maps. *)
Definition forgets {A} (m : M A) : Prop := ∀ w, ids_within w (m w).2.

(** What the shutdown guards protect: the flag, the edge factory and the
    dials. *)
Definition guarded (w : World) :=
  filtered (λ m, (_closed m, _edge_factory m)) is_CreateEdgeTo w.

(** * Theorems *)

Ltac run_monad :=
  cbn [exec Edge_Close Edge_IsClosed mark_closed new_Connection
       CT_Disconnect set_con_state con_tab_do rem_con_tab_do
       qDebug qWarning qCritical qlog emit call skip modify gets bind ret
       with_this on_con_tab on_rem_con_tab on_edge_factory set_closed tables
       this closed_edges con_states next_con trace emitted logs
       _local_id _closed _con_tab _rem_con_tab _edge_factory fst snd].

Ltac just_logged :=
  run_monad; split; [split_and!; reflexivity | eexists; reflexivity].

(** ** Running a computation *)

Lemma bind_gets {A B} (f : World → A) (k : A → M B) (w : World) :
  (x <- gets f ;; k x) w = k (f w) w.
Proof. reflexivity. Qed.

Lemma bind_modify {B} (f : World → World) (k : M B) (w : World) :
  (modify f ;; k) w = k (f w).
Proof. reflexivity. Qed.

Lemma bind_unit {B} (m : M unit) (k : M B) (w : World) :
  (m ;; k) w = k (exec m w).
Proof. unfold bind, exec. by destruct (m w) as [[] ?]. Qed.

Lemma bind_assoc {A B C} (m : M A) (k1 : A → M B) (k2 : B → M C) (w : World) :
  (y <- (x <- m ;; k1 x) ;; k2 y) w = (x <- m ;; y <- k1 x ;; k2 y) w.
Proof. unfold bind. by destruct (m w). Qed.

Lemma foreach_cons {A} (x : A) (l : list A) (body : A → M unit) (w : World) :
  exec (foreach (x :: l) body) w = exec (foreach l body) (exec (body x) w).
Proof. unfold exec at 1. cbn [foreach]. by rewrite bind_unit. Qed.

Section Preserves.
Context {O : Type} (obs : World → O).

Lemma preserves_ret {A} (a : A) : preserves obs (ret a).
Proof. by intros w. Qed.

Lemma preserves_gets {A} (f : World → A) : preserves obs (gets f).
Proof. by intros w. Qed.

Lemma preserves_modify (f : World → World) :
  (∀ w, obs (f w) = obs w) → preserves obs (modify f).
Proof. intros Hf w. apply Hf. Qed.

Lemma preserves_bind {A B} (m : M A) (k : A → M B) :
  preserves obs m → (∀ a, preserves obs (k a)) → preserves obs (bind m k).
Proof.
  intros Hm Hk w. unfold bind. specialize (Hm w).
  destruct (m w) as [a w1]. cbn in *. by rewrite Hk.
Qed.

Lemma preserves_foreach {A} (l : list A) (body : A → M unit) :
  (∀ x, preserves obs (body x)) → preserves obs (foreach l body).
Proof.
  intros Hb. induction l as [|x l IH]; cbn [foreach].
  - apply preserves_ret.
  - by apply preserves_bind.
Qed.

Lemma preserves_exec (m : M unit) (w : World) :
  preserves obs m → obs (exec m w) = obs w.
Proof. intros Hm. apply Hm. Qed.
End Preserves.

(** ** The table *)

Lemma GetEdge_registered edge tab :
  edge ∈ ConnectionTable.GetEdges tab →
  ConnectionTable.GetEdge edge tab = Some edge.
Proof.
  intros H. unfold ConnectionTable.GetEdge. by rewrite bool_decide_eq_true_2.
Qed.

Lemma GetConnection_AddConnection con tab :
  ConnectionTable.GetConnection (Connection.GetRemoteId con)
    (ConnectionTable.AddConnection con tab) = Some con.
Proof. apply lookup_insert_eq. Qed.

Lemma Contains_AddConnection con tab :
  ConnectionTable.Contains con (ConnectionTable.AddConnection con tab) = true.
Proof.
  unfold ConnectionTable.Contains, ConnectionTable.AddConnection; cbn.
  apply bool_decide_eq_true_2, lookup_insert_eq.
Qed.

(** ** The dialer: [Inquired] *)

Lemma Inquired_new_connection (w : World) (edge : Edge) (msg : QVariantMap) :
  let rem_id := toByteArray (value msg "peer_id") in
  let local_id := _local_id (this w) in
  Edge.Outbound edge = true →
  edge ∈ ConnectionTable.GetEdges (_con_tab (this w)) →
  rem_id ≠ "" →
  rem_id ≠ local_id →
  ConnectionTable.GetConnection rem_id (_con_tab (this w)) = None →
  let con := Connection.mk (next_con w) edge local_id rem_id in
  exec (Inquired (mkRpcRequest msg (SEdge edge))) w =
  mkWorld (on_con_tab (ConnectionTable.AddConnection con) (this w))
    (closed_edges w) (<[con := StLive]> (con_states w)) (S (next_con w))
    (trace w ++ SendNotification (Connect_msg local_id) (SEdge edge)
       :: con_signals con ++ [Emit (NewConnection con true)])
    (emitted w ++ [(NewConnection con true,
       (ConnectionTable.AddConnection con (_con_tab (this w)),
        _rem_con_tab (this w)))])
    (logs w ++ [(QtDebugMsg,
       [LId local_id; LStr ": Creating new connection to "; LId rem_id])]).
Proof.
  intros rem_id local_id Hout Hin Hne Hself Hnone con.
  apply GetEdge_registered in Hin.
  unfold exec, Inquired. cbn [GetFrom as_Edge GetMessage].
  rewrite Hout. fold rem_id. unfold isEmpty.
  rewrite (bool_decide_eq_false_2 (rem_id = "")) by done.
  cbn [negb]. rewrite bind_gets.
  rewrite (bool_decide_eq_false_2 _ Hself).
  rewrite bind_gets, Hnone.
  rewrite bool_decide_eq_false_2 by (intros ?; done).
  rewrite bind_gets, Hin.
  run_monad. rewrite <- !app_assoc. reflexivity.
Qed.

(** C1.  An [Inquired] response over an outbound edge registered in the
    outbound table, carrying a non-empty peer id that is neither the local
    id nor the id of a connection of that table: the manager sends
    [CM::Connect] with its own id over the edge, allocates a connection
    with the remote id, adds it to the outbound table and emits
    [NewConnection(con, true)]; the tables seen at the emission already
    hold the connection. *)
Theorem Inquired_promotes_edge (w : World) (edge : Edge) (msg : QVariantMap) :
  let rem_id := toByteArray (value msg "peer_id") in
  let local_id := _local_id (this w) in
  Edge.Outbound edge = true →
  edge ∈ ConnectionTable.GetEdges (_con_tab (this w)) →
  rem_id ≠ "" →
  rem_id ≠ local_id →
  ConnectionTable.GetConnection rem_id (_con_tab (this w)) = None →
  let con := Connection.mk (next_con w) edge local_id rem_id in
  let w' := exec (Inquired (mkRpcRequest msg (SEdge edge))) w in
  trace w' = trace w ++
    SendNotification (Connect_msg local_id) (SEdge edge)
      :: con_signals con ++ [Emit (NewConnection con true)] ∧
  value (Connect_msg local_id) "method" = QString "CM::Connect" ∧
  value (Connect_msg local_id) "peer_id" = QByteArray local_id ∧
  con_states w' !! con = Some StLive ∧
  _con_tab (this w') =
    ConnectionTable.AddConnection con (_con_tab (this w)) ∧
  _rem_con_tab (this w') = _rem_con_tab (this w) ∧
  ConnectionTable.GetConnection rem_id (_con_tab (this w')) = Some con ∧
  ConnectionTable.Contains con (_con_tab (this w')) = true ∧
  emitted w' = emitted w ++ [(NewConnection con true, tables w')].
Proof.
  intros rem_id local_id Hout Hin Hne Hself Hnone con w'.
  subst w'. rewrite Inquired_new_connection by done. cbn.
  fold rem_id local_id con.
  split_and!; try reflexivity.
  - apply lookup_insert_eq.
  - apply (GetConnection_AddConnection con).
  - apply Contains_AddConnection.
Qed.

Lemma Inquired_promotes_edge_witness :
  Edge.Outbound E1 = true ∧
  E1 ∈ ConnectionTable.GetEdges (_con_tab (this node_dialing)) ∧
  toByteArray (value (peer_id_msg "B") "peer_id") ≠ "" ∧
  toByteArray (value (peer_id_msg "B") "peer_id") ≠ _local_id (this node_dialing) ∧
  ConnectionTable.GetConnection "B" (_con_tab (this node_dialing)) = None ∧
  let con := Connection.mk 0 E1 "A" "B" in
  let w' := exec (Inquired (mkRpcRequest (peer_id_msg "B") (SEdge E1)))
                 node_dialing in
  trace w' = trace node_dialing ++
    SendNotification (Connect_msg "A") (SEdge E1)
      :: con_signals con ++ [Emit (NewConnection con true)] ∧
  value (Connect_msg "A") "method" = QString "CM::Connect" ∧
  value (Connect_msg "A") "peer_id" = QByteArray "A" ∧
  con_states w' !! con = Some StLive ∧
  _con_tab (this w') =
    ConnectionTable.AddConnection con (_con_tab (this node_dialing)) ∧
  _rem_con_tab (this w') = _rem_con_tab (this node_dialing) ∧
  ConnectionTable.GetConnection "B" (_con_tab (this w')) = Some con ∧
  ConnectionTable.Contains con (_con_tab (this w')) = true ∧
  emitted w' = emitted node_dialing ++ [(NewConnection con true, tables w')].
Proof.
  assert (H1 : Edge.Outbound E1 = true) by reflexivity.
  assert (H2 : E1 ∈ ConnectionTable.GetEdges (_con_tab (this node_dialing)))
    by (vm_compute; left).
  assert (H3 : toByteArray (value (peer_id_msg "B") "peer_id") ≠ "")
    by (vm_compute; discriminate).
  assert (H4 : toByteArray (value (peer_id_msg "B") "peer_id")
               ≠ _local_id (this node_dialing))
    by (vm_compute; discriminate).
  assert (H5 : ConnectionTable.GetConnection
                 (toByteArray (value (peer_id_msg "B") "peer_id"))
                 (_con_tab (this node_dialing)) = None)
    by (vm_compute; reflexivity).
  refine (conj H1 (conj H2 (conj H3 (conj H4 (conj H5 _))))).
  exact (Inquired_promotes_edge node_dialing E1 (peer_id_msg "B") H1 H2 H3 H4 H5).
Defined.

Lemma Inquired_self (w : World) (edge : Edge) (msg : QVariantMap) :
  Edge.Outbound edge = true →
  toByteArray (value msg "peer_id") ≠ "" →
  toByteArray (value msg "peer_id") = _local_id (this w) →
  exec (Inquired (mkRpcRequest msg (SEdge edge))) w =
  mkWorld (this w) ({[edge]} ∪ closed_edges w) (con_states w) (next_con w)
    (trace w ++
       [SendNotification (method "CM::Close") (SEdge edge);
        EdgeClose edge "Attempting to connect to ourself";
        Emit (ConnectionAttemptFailure (Edge.GetRemoteAddress edge)
                "Attempting to connect to ourself")])
    (emitted w ++
       [(ConnectionAttemptFailure (Edge.GetRemoteAddress edge)
           "Attempting to connect to ourself", tables w)])
    (logs w ++ [(QtDebugMsg, [LStr "Attempting to connect to ourself"])]).
Proof.
  intros Hout Hne Hself.
  unfold exec, Inquired. cbn [GetFrom as_Edge GetMessage].
  rewrite Hout. unfold isEmpty.
  rewrite (bool_decide_eq_false_2 _ Hne).
  cbn [negb]. rewrite bind_gets.
  rewrite (bool_decide_eq_true_2 _ Hself).
  run_monad. rewrite <- !app_assoc. reflexivity.
Qed.

Lemma Inquired_duplicate (w : World) (edge : Edge) (msg : QVariantMap)
    (c : Connection) :
  let rem_id := toByteArray (value msg "peer_id") in
  Edge.Outbound edge = true →
  rem_id ≠ "" →
  rem_id ≠ _local_id (this w) →
  ConnectionTable.GetConnection rem_id (_con_tab (this w)) = Some c →
  exec (Inquired (mkRpcRequest msg (SEdge edge))) w =
  mkWorld (this w) ({[edge]} ∪ closed_edges w) (con_states w) (next_con w)
    (trace w ++
       [SendNotification (method "CM::Close") (SEdge edge);
        EdgeClose edge "Duplicate connection";
        Emit (ConnectionAttemptFailure (Edge.GetRemoteAddress edge)
                "Duplicate connection")])
    (emitted w ++
       [(ConnectionAttemptFailure (Edge.GetRemoteAddress edge)
           "Duplicate connection", tables w)])
    (logs w ++ [(QtWarningMsg,
       [LStr "Already have a connection to: "; LId rem_id;
        LStr " closing Edge: "; LSender (SEdge edge)])]).
Proof.
  intros rem_id Hout Hne Hself Hsome.
  unfold exec, Inquired. cbn [GetFrom as_Edge GetMessage].
  rewrite Hout. fold rem_id. unfold isEmpty.
  rewrite (bool_decide_eq_false_2 _ Hne).
  cbn [negb]. rewrite bind_gets.
  rewrite (bool_decide_eq_false_2 _ Hself).
  rewrite bind_gets, Hsome.
  rewrite bool_decide_eq_true_2 by done.
  run_monad. rewrite <- !app_assoc. reflexivity.
Qed.

(** C2.  An [Inquired] response over an outbound edge that carries the
    local id is answered with [CM::Close], the edge is closed with the
    reason "Attempting to connect to ourself" and
    [ConnectionAttemptFailure] is emitted with that reason; one that
    carries the id of a connection of the outbound table gets the same
    treatment with the reason "Duplicate connection".  Either way no
    connection is allocated, nothing but the failure is emitted, the
    manager's tables are as they were, and in the duplicate case the
    table still maps the id to the connection it held, in the state it
    had; the edge of that connection is as it was when the response came
    over another edge, and is closed when the response came over that
    very edge. *)
Theorem Inquired_refuses_self_and_duplicate (w : World) (edge : Edge)
    (msg : QVariantMap) :
  let rem_id := toByteArray (value msg "peer_id") in
  let w' := exec (Inquired (mkRpcRequest msg (SEdge edge))) w in
  Edge.Outbound edge = true →
  rem_id ≠ "" →
  (rem_id = _local_id (this w) →
     refused w w' edge "Attempting to connect to ourself") ∧
  (∀ c, rem_id ≠ _local_id (this w) →
     ConnectionTable.GetConnection rem_id (_con_tab (this w)) = Some c →
     refused w w' edge "Duplicate connection" ∧
     ConnectionTable.GetConnection rem_id (_con_tab (this w')) = Some c ∧
     con_states w' !! c = con_states w !! c ∧
     (Connection.GetEdge c ≠ edge →
        (Connection.GetEdge c ∈ closed_edges w' ↔
         Connection.GetEdge c ∈ closed_edges w)) ∧
     (Connection.GetEdge c = edge → Connection.GetEdge c ∈ closed_edges w')).
Proof.
  intros rem_id w' Hout Hne. split.
  - intros Hself. subst w'. rewrite Inquired_self by done.
    unfold refused; cbn. done.
  - intros c Hself Hsome. subst w'.
    rewrite (Inquired_duplicate w edge msg c) by done.
    unfold refused; cbn. split_and!; try done.
    + intros Hedge. rewrite elem_of_union, elem_of_singleton.
      split; [intros [Heq|?]; [by destruct Hedge|done] | by right].
    + intros ->. apply elem_of_union_l. by apply elem_of_singleton.
Qed.

Lemma Inquired_refuses_self_and_duplicate_witness :
  let msg := peer_id_msg "B" in
  let w' := exec (Inquired (mkRpcRequest msg (SEdge E2))) node_connected in
  Edge.Outbound E2 = true ∧
  toByteArray (value msg "peer_id") ≠ "" ∧
  toByteArray (value msg "peer_id") ≠ _local_id (this node_connected) ∧
  ConnectionTable.GetConnection (toByteArray (value msg "peer_id"))
    (_con_tab (this node_connected)) = Some (Connection.mk 0 E1 "A" "B") ∧
  refused node_connected w' E2 "Duplicate connection".
Proof.
  intros msg w'.
  assert (H1 : Edge.Outbound E2 = true) by reflexivity.
  assert (H2 : toByteArray (value msg "peer_id") ≠ "")
    by (vm_compute; discriminate).
  assert (H3 : toByteArray (value msg "peer_id")
               ≠ _local_id (this node_connected))
    by (vm_compute; discriminate).
  assert (H4 : ConnectionTable.GetConnection (toByteArray (value msg "peer_id"))
                 (_con_tab (this node_connected))
               = Some (Connection.mk 0 E1 "A" "B"))
    by (vm_compute; reflexivity).
  refine (conj H1 (conj H2 (conj H3 (conj H4 _)))).
  exact (proj1 (proj2 (Inquired_refuses_self_and_duplicate
                         node_connected E2 msg H1 H2) _ H3 H4)).
Defined.

(** The connection that the table holds for the id is not always left as
    it was: when the response comes over the edge of that very
    connection, the duplicate branch closes that edge. *)
Lemma Inquired_duplicate_over_own_edge :
  let w := exec (run [NewEdge E1;
                      CM_Inquired (mkRpcRequest (peer_id_msg "B") (SEdge E1))])
                (ConnectionManager "A") in
  let c := Connection.mk 0 E1 "A" "B" in
  let w' := exec (Inquired (mkRpcRequest (peer_id_msg "B") (SEdge E1))) w in
  Edge.Outbound E1 = true ∧
  ConnectionTable.GetConnection "B" (_con_tab (this w)) = Some c ∧
  con_states w !! c = Some StLive ∧
  Connection.GetEdge c = E1 ∧
  (E1 ∉ closed_edges w) ∧
  E1 ∈ closed_edges w' ∧
  trace w' = trace w ++
    [SendNotification (method "CM::Close") (SEdge E1);
     EdgeClose E1 "Duplicate connection";
     Emit (ConnectionAttemptFailure mem_B "Duplicate connection")].
Proof.
  intros w c w'. split_and!; try (vm_compute; reflexivity).
  apply (bool_decide_unpack _). vm_compute. exact I.
Qed.

(** ** Adoption of a new edge *)

(** C6.  [HandleNewEdge] sets the sink of the edge and subscribes to its
    [Closed] signal; an outbound edge goes into the outbound table and a
    [CM::Inquire] request carrying the local id is sent over it; an
    inbound edge goes into the inbound table and nothing is sent. *)
Theorem HandleNewEdge_adopts (w : World) (edge : Edge) :
  let w' := exec (HandleNewEdge edge) w in
  let local_id := _local_id (this w) in
  trace w' = trace w ++ SetSink edge RpcHandler :: subscribe_Closed edge ::
    (if Edge.Outbound edge
     then [SendRequest (Inquire_msg local_id) (SEdge edge) "Inquired"]
     else []) ∧
  value (Inquire_msg local_id) "method" = QString "CM::Inquire" ∧
  value (Inquire_msg local_id) "peer_id" = QByteArray local_id ∧
  (if Edge.Outbound edge
   then _con_tab (this w') = ConnectionTable.AddEdge edge (_con_tab (this w)) ∧
        _rem_con_tab (this w') = _rem_con_tab (this w) ∧
        edge ∈ ConnectionTable.GetEdges (_con_tab (this w'))
   else _rem_con_tab (this w') =
          ConnectionTable.AddEdge edge (_rem_con_tab (this w)) ∧
        _con_tab (this w') = _con_tab (this w) ∧
        edge ∈ ConnectionTable.GetEdges (_rem_con_tab (this w'))) ∧
  emitted w' = emitted w ∧
  closed_edges w' = closed_edges w ∧
  con_states w' = con_states w ∧
  next_con w' = next_con w.
Proof.
  intros w' local_id. subst w'. unfold HandleNewEdge.
  destruct (Edge.Outbound edge); run_monad; cbn [negb]; run_monad;
    rewrite <- ?app_assoc; split_and!; try reflexivity;
    cbn; rewrite elem_of_app, list_elem_of_singleton; by right.
Qed.

(** ** The public interface after shutdown *)

(** C7.  After [Disconnect()], [ConnectTo] and [AddEdgeListener] log one
    warning and do nothing else: no listener is asked to dial, none is
    registered, nothing is emitted.  Before shutdown, [ConnectTo] asks the
    listener registered for the scheme of the address to dial and emits
    nothing, and when no listener is registered for that scheme it emits
    [ConnectionAttemptFailure(addr, "No EdgeListener to handle request")]
    and dials nothing. *)
Theorem ConnectTo_and_AddEdgeListener_guards (w : World) (addr : Address)
    (el : EdgeListener) :
  (_closed (this w) = true →
     dropped w (exec (ConnectTo addr) w) ∧
     dropped w (exec (AddEdgeListener el) w)) ∧
  (_closed (this w) = false →
     let w' := exec (ConnectTo addr) w in
     this w' = this w ∧ logs w' = logs w ∧
     match EdgeFactory.handler addr (_edge_factory (this w)) with
     | Some l => trace w' = trace w ++ [CreateEdgeTo l addr] ∧
                 emitted w' = emitted w
     | None =>
         trace w' = trace w ++
           [Emit (ConnectionAttemptFailure addr
                    "No EdgeListener to handle request")] ∧
         emitted w' = emitted w ++
           [(ConnectionAttemptFailure addr "No EdgeListener to handle request",
             tables w)]
     end).
Proof.
  split; intros Hc.
  - unfold dropped, only_logs, exec, ConnectTo, AddEdgeListener.
    rewrite !bind_gets, Hc. split; just_logged.
  - unfold exec, ConnectTo, EdgeFactory_CreateEdgeTo.
    rewrite bind_gets, Hc, bind_assoc, bind_gets.
    destruct (EdgeFactory.handler addr (_edge_factory (this w)));
      run_monad; cbn [negb]; run_monad; done.
Qed.

Lemma ConnectTo_and_AddEdgeListener_guards_witness :
  let w := exec Disconnect node_connected in
  _closed (this w) = true ∧
  dropped w (exec (ConnectTo mem_B) w).
Proof.
  intros w.
  assert (H : _closed (this w) = true) by (vm_compute; reflexivity).
  exact (conj H (proj1 (proj1
           (ConnectTo_and_AddEdgeListener_guards w mem_B mem_listener) H))).
Defined.

(** ** Malformed handshake messages *)

Lemma missing_peer_id (msg : QVariantMap) :
  msg !! "peer_id" = None → toByteArray (value msg "peer_id") = "".
Proof. intros H. unfold value. by rewrite H. Qed.

Lemma Inquired_malformed (w : World) (response : RpcRequest) :
  as_Edge (GetFrom response) = None ∨
  (∃ edge, GetFrom response = SEdge edge ∧ Edge.Outbound edge = false) ∨
  toByteArray (value (GetMessage response) "peer_id") = "" →
  dropped w (exec (Inquired response) w).
Proof.
  intros H. unfold dropped, only_logs, exec, Inquired.
  destruct (as_Edge (GetFrom response)) as [edge|] eqn:Hfrom.
  - destruct (Edge.Outbound edge) eqn:Hout; cbn [negb].
    + destruct H as [H | [(e & He & Hin) | H]]; [done | |].
      * rewrite He in Hfrom. injection Hfrom as <-. congruence.
      * rewrite H. change (isEmpty "") with true. just_logged.
    + just_logged.
  - just_logged.
Qed.

Lemma Connect_malformed (w : World) (notification : RpcRequest) :
  as_Edge (GetFrom notification) = None ∨
  toByteArray (value (GetMessage notification) "peer_id") = "" →
  dropped w (exec (Connect notification) w).
Proof.
  intros H. unfold dropped, only_logs, exec, Connect.
  destruct (as_Edge (GetFrom notification)) as [edge|] eqn:Hfrom.
  - destruct H as [H | H]; [done |].
    rewrite H. change (isEmpty "") with true. just_logged.
  - just_logged.
Qed.

(** C8.  An [Inquired] response or a [CM::Connect] notification whose
    sender is not an edge, an [Inquired] response that arrives over an
    inbound edge, and an [Inquired] or [CM::Connect] payload whose
    [peer_id] is missing or empty are dropped: one warning is logged;
    no call is made on any collaborator (no message sent, no edge
    closed), nothing is emitted, no connection is allocated and the
    manager, its two tables included, is as it was. *)
Theorem malformed_handshake_dropped (w : World) (r : RpcRequest) :
  (as_Edge (GetFrom r) = None →
     dropped w (exec (Inquired r) w) ∧ dropped w (exec (Connect r) w)) ∧
  (∀ edge, GetFrom r = SEdge edge → Edge.Outbound edge = false →
     dropped w (exec (Inquired r) w)) ∧
  (GetMessage r !! "peer_id" = None ∨
   toByteArray (value (GetMessage r) "peer_id") = "" →
     dropped w (exec (Inquired r) w) ∧ dropped w (exec (Connect r) w)).
Proof.
  split_and!.
  - intros H. split; [apply Inquired_malformed | apply Connect_malformed];
      by left.
  - intros edge Hfrom Hout. apply Inquired_malformed. right; left. eauto.
  - intros H.
    assert (toByteArray (value (GetMessage r) "peer_id") = "") as Hempty
      by (destruct H; [by apply missing_peer_id | done]).
    split; [apply Inquired_malformed | apply Connect_malformed]; by right; try right.
Qed.

Lemma malformed_handshake_dropped_witness :
  let r := mkRpcRequest (method "CM::Connect") (SEdge E1) in
  (GetMessage r !! "peer_id" = None ∨
   toByteArray (value (GetMessage r) "peer_id") = "") ∧
  dropped node_dialing (exec (Inquired r) node_dialing) ∧
  dropped node_dialing (exec (Connect r) node_dialing).
Proof.
  intros r.
  assert (H : GetMessage r !! "peer_id" = None ∨
              toByteArray (value (GetMessage r) "peer_id") = "")
    by (left; vm_compute; reflexivity).
  exact (conj H (proj2 (proj2 (malformed_handshake_dropped node_dialing r)) H)).
Defined.

(** ** Teardown of a connection *)

Lemma HandleDisconnect_exec (w : World) (con : Connection) :
  exec (HandleDisconnect con) w =
  mkWorld
    (if ConnectionTable.Contains con (_con_tab (this w))
     then on_con_tab (ConnectionTable.Disconnect con) (this w)
     else on_rem_con_tab (ConnectionTable.Disconnect con) (this w))
    ({[Connection.GetEdge con]} ∪ closed_edges w)
    (<[con := StDisconnectRequested]> (con_states w))
    (next_con w)
    (trace w ++ local_disconnect con)
    (emitted w)
    (logs w ++ [(QtDebugMsg, [LStr "Handle disconnect on: "; LSender (SCon con)])]).
Proof.
  unfold exec, HandleDisconnect. rewrite bind_gets.
  destruct (ConnectionTable.Contains con (_con_tab (this w)));
    run_monad; rewrite <- !app_assoc; reflexivity.
Qed.

Lemma Disconnect_rpc_exec (w : World) (msg : QVariantMap) (con : Connection) :
  exec (Disconnect_rpc (mkRpcRequest msg (SCon con))) w =
  mkWorld
    (if ConnectionTable.Contains con (_rem_con_tab (this w))
     then on_rem_con_tab (ConnectionTable.Disconnect con) (this w)
     else on_con_tab (ConnectionTable.Disconnect con) (this w))
    ({[Connection.GetEdge con]} ∪ closed_edges w)
    (<[con := StDisconnectRequested]> (con_states w))
    (next_con w)
    (trace w ++ [EdgeClose (Connection.GetEdge con) "Remote disconnect"])
    (emitted w)
    (logs w ++ [(QtDebugMsg, [LStr "Received disconnect for: "; LSender (SCon con)])]).
Proof.
  unfold exec, Disconnect_rpc. cbn [GetFrom as_Connection].
  rewrite bind_unit, bind_gets. run_monad.
  destruct (ConnectionTable.Contains con (_rem_con_tab (this w)));
    run_monad; reflexivity.
Qed.

(** C10.  A [CM::Disconnect] notification from a connection marks the
    connection as disconnecting in the inbound table when that table
    holds it, and otherwise applies the marking to the outbound table,
    whether or not the outbound table holds it; then the edge of the
    connection is closed with the reason "Remote disconnect".
    [HandleDisconnect] prefers the outbound table and falls back to the
    inbound one.  [HandleDisconnected] removes the connection from the
    table selected by the [Outbound] flag of its edge. *)
Theorem teardown_routing (w : World) (msg : QVariantMap) (con : Connection)
    (reason : string) :
  let remote := exec (Disconnect_rpc (mkRpcRequest msg (SCon con))) w in
  let loc := exec (HandleDisconnect con) w in
  let final := exec (HandleDisconnected con reason) w in
  (this remote =
     if ConnectionTable.Contains con (_rem_con_tab (this w))
     then on_rem_con_tab (ConnectionTable.Disconnect con) (this w)
     else on_con_tab (ConnectionTable.Disconnect con) (this w)) ∧
  con_states remote !! con = Some StDisconnectRequested ∧
  trace remote =
    trace w ++ [EdgeClose (Connection.GetEdge con) "Remote disconnect"] ∧
  Connection.GetEdge con ∈ closed_edges remote ∧
  (this loc =
     if ConnectionTable.Contains con (_con_tab (this w))
     then on_con_tab (ConnectionTable.Disconnect con) (this w)
     else on_rem_con_tab (ConnectionTable.Disconnect con) (this w)) ∧
  con_states loc !! con = Some StDisconnectRequested ∧
  trace loc = trace w ++ local_disconnect con ∧
  (this final =
     if Edge.Outbound (Connection.GetEdge con)
     then on_con_tab (ConnectionTable.RemoveConnection con) (this w)
     else on_rem_con_tab (ConnectionTable.RemoveConnection con) (this w)) ∧
  trace final = trace w.
Proof.
  intros remote loc final. subst remote loc final.
  rewrite Disconnect_rpc_exec, HandleDisconnect_exec.
  cbn [this con_states trace closed_edges].
  split_and!; try reflexivity; try apply lookup_insert_eq.
  - apply elem_of_union_l, elem_of_singleton. reflexivity.
  - unfold exec, HandleDisconnected.
    destruct (Edge.Outbound (Connection.GetEdge con)); run_monad; reflexivity.
  - unfold exec, HandleDisconnected.
    destruct (Edge.Outbound (Connection.GetEdge con)); run_monad; reflexivity.
Qed.

(** ** The listener: [Inquire] and [Connect] *)

(** The world after [con->Disconnect()]. *)
Lemma Connection_Disconnect_exec (w : World) (con : Connection) :
  exec (Connection_Disconnect con) w =
  mkWorld
    (if ConnectionTable.Contains con (_con_tab (this w))
     then on_con_tab (ConnectionTable.Disconnect con) (this w)
     else on_rem_con_tab (ConnectionTable.Disconnect con) (this w))
    ({[Connection.GetEdge con]} ∪ closed_edges w)
    (<[con := StDisconnectRequested]> (con_states w))
    (next_con w)
    (trace w ++ disconnected con)
    (emitted w)
    (logs w ++ [(QtDebugMsg, [LStr "Handle disconnect on: "; LSender (SCon con)])]).
Proof.
  unfold exec, Connection_Disconnect. rewrite bind_unit.
  fold (exec (HandleDisconnect con) (exec (call (ConnectionDisconnect con)) w)).
  rewrite HandleDisconnect_exec. run_monad. by rewrite <- app_assoc.
Qed.

(** [con->Disconnect()] leaves the edges of both tables, the allocator and
    the local id alone. *)
Lemma Connection_Disconnect_frame (w : World) (con : Connection) :
  let w' := exec (Connection_Disconnect con) w in
  ConnectionTable.edges (_con_tab (this w')) =
    ConnectionTable.edges (_con_tab (this w)) ∧
  ConnectionTable.edges (_rem_con_tab (this w')) =
    ConnectionTable.edges (_rem_con_tab (this w)) ∧
  ConnectionTable.edge_to_con (_con_tab (this w')) =
    ConnectionTable.edge_to_con (_con_tab (this w)) ∧
  ConnectionTable.edge_to_con (_rem_con_tab (this w')) =
    ConnectionTable.edge_to_con (_rem_con_tab (this w)) ∧
  _local_id (this w') = _local_id (this w) ∧
  _closed (this w') = _closed (this w) ∧
  _edge_factory (this w') = _edge_factory (this w) ∧
  next_con w' = next_con w.
Proof.
  cbn zeta. rewrite Connection_Disconnect_exec.
  destruct (ConnectionTable.Contains con (_con_tab (this w))); cbn; done.
Qed.

Lemma Connect_exec (w : World) (edge : Edge) (msg : QVariantMap) :
  let rem_id := toByteArray (value msg "peer_id") in
  let local_id := _local_id (this w) in
  edge ∈ ConnectionTable.GetEdges (_rem_con_tab (this w)) →
  rem_id ≠ "" →
  let con := Connection.mk (next_con w) edge local_id rem_id in
  let w1 := superseded rem_id w in
  exec (Connect (mkRpcRequest msg (SEdge edge))) w =
  mkWorld (on_rem_con_tab (ConnectionTable.AddConnection con) (this w1))
    (closed_edges w1) (<[con := StLive]> (con_states w1)) (S (next_con w))
    (trace w1 ++ con_signals con ++ [Emit (NewConnection con false)])
    (emitted w1 ++ [(NewConnection con false,
       (_con_tab (this w1),
        ConnectionTable.AddConnection con (_rem_con_tab (this w1))))])
    (logs w1 ++ [(QtDebugMsg,
       [LId local_id; LStr ": Handle new connection from "; LId rem_id])]).
Proof.
  intros rem_id local_id Hin Hne con w1.
  unfold exec, Connect. cbn [GetFrom as_Edge GetMessage].
  fold rem_id. unfold isEmpty.
  rewrite (bool_decide_eq_false_2 _ Hne).
  rewrite bind_gets, bind_unit.
  assert (exec match ConnectionTable.GetConnection rem_id
                       (_rem_con_tab (this w)) with
               | Some old => Connection_Disconnect old
               | None => skip
               end w = w1) as ->.
  { unfold w1, superseded.
    by destruct (ConnectionTable.GetConnection rem_id (_rem_con_tab (this w))). }
  assert (ConnectionTable.edges (_rem_con_tab (this w1)) =
            ConnectionTable.edges (_rem_con_tab (this w))
          ∧ _local_id (this w1) = local_id ∧ next_con w1 = next_con w)
    as (Hedges & Hlocal & Hnext).
  { unfold w1, superseded.
    destruct (ConnectionTable.GetConnection rem_id (_rem_con_tab (this w)));
      [|done].
    pose proof (Connection_Disconnect_frame w t) as H. cbn zeta in H.
    destruct H as (? & ? & ? & ? & ? & ? & ? & ?). done. }
  rewrite bind_gets.
  rewrite GetEdge_registered
    by (unfold ConnectionTable.GetEdges; by rewrite Hedges).
  run_monad. rewrite Hlocal, Hnext. rewrite <- !app_assoc. reflexivity.
Qed.

(** C5.  A [CM::Inquire] request is answered with the local id.  A
    [CM::Connect] notification with a non-empty peer id over an edge
    registered in the inbound table first calls [Disconnect()] on the
    connection that table holds for that peer, if there is one
    ([CM::Disconnect] sent over it, its edge closed), then allocates a
    connection with the carried id, adds it to the inbound table and
    emits [NewConnection(con, false)]. *)
Theorem Inquire_answers_and_Connect_promotes (w : World) (request : RpcRequest)
    (edge : Edge) (msg : QVariantMap) :
  let local_id := _local_id (this w) in
  let rem_id := toByteArray (value msg "peer_id") in
  let old := ConnectionTable.GetConnection rem_id (_rem_con_tab (this w)) in
  let con := Connection.mk (next_con w) edge local_id rem_id in
  let answered := exec (Inquire request) w in
  let w' := exec (Connect (mkRpcRequest msg (SEdge edge))) w in
  edge ∈ ConnectionTable.GetEdges (_rem_con_tab (this w)) →
  rem_id ≠ "" →
  (trace answered = trace w ++ [Respond request (Inquire_response local_id)] ∧
   value (Inquire_response local_id) "peer_id" = QByteArray local_id ∧
   this answered = this w) ∧
  trace w' = trace w ++
    match old with Some o => disconnected o | None => [] end ++
    con_signals con ++ [Emit (NewConnection con false)] ∧
  (∀ o, old = Some o → o ≠ con →
     con_states w' !! o = Some StDisconnectRequested) ∧
  con_states w' !! con = Some StLive ∧
  Connection.GetRemoteId con = rem_id ∧
  ConnectionTable.GetConnection rem_id (_rem_con_tab (this w')) = Some con ∧
  ConnectionTable.Contains con (_rem_con_tab (this w')) = true ∧
  emitted w' = emitted w ++ [(NewConnection con false, tables w')].
Proof.
  intros local_id rem_id old con answered w' Hin Hne.
  subst answered w'. rewrite Connect_exec by done.
  fold rem_id local_id con. cbn.
  split_and!; try reflexivity.
  - unfold superseded. fold old. destruct old as [o|]; [|done].
    rewrite Connection_Disconnect_exec. cbn. by rewrite <- app_assoc.
  - intros o Ho Hneq. rewrite lookup_insert_ne by done.
    unfold superseded. fold old. rewrite Ho, Connection_Disconnect_exec. cbn.
    apply lookup_insert_eq.
  - apply lookup_insert_eq.
  - apply (GetConnection_AddConnection con).
  - apply Contains_AddConnection.
  - unfold superseded. fold old. destruct old as [o|]; [|done].
    rewrite Connection_Disconnect_exec. done.
Qed.

Lemma Inquire_answers_and_Connect_promotes_witness :
  let msg := peer_id_msg "C" in
  let request := mkRpcRequest msg (SEdge E3) in
  let con := Connection.mk (next_con node_listening) E3
               (_local_id (this node_listening))
               (toByteArray (value msg "peer_id")) in
  let w' := exec (Connect request) node_listening in
  E3 ∈ ConnectionTable.GetEdges (_rem_con_tab (this node_listening)) ∧
  toByteArray (value msg "peer_id") ≠ "" ∧
  ConnectionTable.Contains con (_rem_con_tab (this w')) = true ∧
  emitted w' = emitted node_listening ++ [(NewConnection con false, tables w')].
Proof.
  intros msg request con w'.
  assert (H1 : E3 ∈ ConnectionTable.GetEdges (_rem_con_tab (this node_listening)))
    by (vm_compute; left).
  assert (H2 : toByteArray (value msg "peer_id") ≠ "")
    by (vm_compute; discriminate).
  pose proof (Inquire_answers_and_Connect_promotes
                node_listening request E3 msg H1 H2) as H.
  exact (conj H1 (conj H2 (conj (proj1 (proj2 (proj2 (proj2 (proj2 (proj2 (proj2 H)))))))
                                (proj2 (proj2 (proj2 (proj2 (proj2 (proj2 (proj2 H)))))))))).
Defined.

(** ** The handshake after shutdown *)

Lemma cb_ret {A} (a : A) : closed_blind (ret a).
Proof. by intros b w. Qed.

Lemma cb_bind {A B} (m : M A) (k : A → M B) :
  closed_blind m → (∀ a, closed_blind (k a)) → closed_blind (bind m k).
Proof.
  intros Hm Hk b w. unfold bind. rewrite Hm.
  destruct (m w) as [a w1]. cbn. apply Hk.
Qed.

Lemma cb_gets {A} (f : World → A) :
  (∀ b w, f (with_this (set_closed b) w) = f w) → closed_blind (gets f).
Proof. intros Hf b w. unfold gets. cbn. by rewrite Hf. Qed.

Lemma cb_modify (f : World → World) :
  (∀ b w, f (with_this (set_closed b) w) = with_this (set_closed b) (f w)) →
  closed_blind (modify f).
Proof. intros Hf b w. unfold modify. cbn. by rewrite Hf. Qed.

Lemma cb_call a : closed_blind (call a).
Proof. by apply cb_modify. Qed.

Lemma cb_emit sig : closed_blind (emit sig).
Proof. by apply cb_modify. Qed.

Lemma cb_qlog lvl msg : closed_blind (qlog lvl msg).
Proof. by apply cb_modify. Qed.

Lemma cb_mark_closed e : closed_blind (mark_closed e).
Proof. by apply cb_modify. Qed.

Lemma cb_set_con_state con st : closed_blind (set_con_state con st).
Proof. by apply cb_modify. Qed.

Lemma cb_con_tab_do f : closed_blind (con_tab_do f).
Proof. by apply cb_modify. Qed.

Lemma cb_rem_con_tab_do f : closed_blind (rem_con_tab_do f).
Proof. by apply cb_modify. Qed.

Create HintDb closed_blind.
#[local] Hint Resolve cb_ret cb_call cb_emit cb_qlog cb_mark_closed
  cb_set_con_state cb_con_tab_do cb_rem_con_tab_do : closed_blind.

Ltac closed_blind_step :=
  first
    [ apply cb_bind; [|intros ?]
    | apply cb_gets; intros; reflexivity
    | apply cb_modify; intros; reflexivity
    | progress auto with closed_blind
    | case_match ].

Lemma cb_Edge_Close e reason : closed_blind (Edge_Close e reason).
Proof. unfold Edge_Close. repeat closed_blind_step. Qed.

Lemma cb_new_Connection pedge local_id rem_id :
  closed_blind (new_Connection pedge local_id rem_id).
Proof. unfold new_Connection. repeat closed_blind_step. Qed.

Lemma cb_HandleDisconnect con : closed_blind (HandleDisconnect con).
Proof.
  unfold HandleDisconnect, CT_Disconnect, qDebug.
  repeat closed_blind_step; apply cb_Edge_Close.
Qed.

#[local] Hint Resolve cb_Edge_Close cb_new_Connection cb_HandleDisconnect
  : closed_blind.

Lemma cb_Inquired response : closed_blind (Inquired response).
Proof.
  unfold Inquired, qWarning, qDebug, qCritical. repeat closed_blind_step.
Qed.

Lemma cb_Connect notification : closed_blind (Connect notification).
Proof.
  unfold Connect, Connection_Disconnect, qWarning, qDebug, qCritical, skip.
  repeat closed_blind_step.
Qed.

Lemma closed_blind_exec {A} (m : M A) (b : bool) (w : World) :
  closed_blind m →
  exec m (with_this (set_closed b) w) = with_this (set_closed b) (exec m w).
Proof. intros Hm. unfold exec. by rewrite Hm. Qed.

Lemma set_closed_id (w : World) :
  with_this (set_closed (_closed (this w))) w = w.
Proof. by destruct w as [[] ? ? ? ? ? ?]. Qed.

Lemma set_closed_twice (b b' : bool) (w : World) :
  with_this (set_closed b) (with_this (set_closed b') w)
  = with_this (set_closed b) w.
Proof. reflexivity. Qed.

Lemma closed_blind_keeps {A} (m : M A) (w : World) :
  closed_blind m →
  exec m w = with_this (set_closed (_closed (this w))) (exec m w).
Proof.
  intros Hm. rewrite <- closed_blind_exec by done. by rewrite set_closed_id.
Qed.

(** C9.  [Inquired] and [Connect] never look at [_closed].  In a manager
    that is already closed, each of them does exactly what it does in the
    same manager not yet closed.  In particular a well-formed [Inquired]
    response over an outbound edge still in the outbound table, and a
    well-formed [CM::Connect] over an edge still in the inbound table,
    allocate a connection, add it to the table and emit [NewConnection],
    and the manager stays closed. *)
Theorem handshake_ignores_closed (w : World) (edge : Edge) (msg : QVariantMap) :
  let r := mkRpcRequest msg (SEdge edge) in
  let rem_id := toByteArray (value msg "peer_id") in
  let local_id := _local_id (this w) in
  let before := with_this (set_closed false) w in
  let con := Connection.mk (next_con w) edge local_id rem_id in
  _closed (this w) = true →
  rem_id ≠ "" →
  (exec (Inquired r) w = with_this (set_closed true) (exec (Inquired r) before) ∧
   exec (Connect r) w = with_this (set_closed true) (exec (Connect r) before)) ∧
  (Edge.Outbound edge = true →
   edge ∈ ConnectionTable.GetEdges (_con_tab (this w)) →
   rem_id ≠ local_id →
   ConnectionTable.GetConnection rem_id (_con_tab (this w)) = None →
   let w' := exec (Inquired r) w in
   _closed (this w') = true ∧
   con_states w' !! con = Some StLive ∧
   ConnectionTable.Contains con (_con_tab (this w')) = true ∧
   emitted w' = emitted w ++ [(NewConnection con true, tables w')]) ∧
  (edge ∈ ConnectionTable.GetEdges (_rem_con_tab (this w)) →
   let w' := exec (Connect r) w in
   _closed (this w') = true ∧
   con_states w' !! con = Some StLive ∧
   ConnectionTable.Contains con (_rem_con_tab (this w')) = true ∧
   emitted w' = emitted w ++ [(NewConnection con false, tables w')]).
Proof.
  intros r rem_id local_id before con Hclosed Hne. split_and!.
  - subst before. rewrite closed_blind_exec by apply cb_Inquired.
    rewrite set_closed_twice, <- Hclosed.
    apply closed_blind_keeps, cb_Inquired.
  - subst before. rewrite closed_blind_exec by apply cb_Connect.
    rewrite set_closed_twice, <- Hclosed.
    apply closed_blind_keeps, cb_Connect.
  - intros Hout Hin Hself Hnone w'. subst w' r.
    rewrite Inquired_new_connection by done. cbn.
    fold rem_id local_id con. split_and!; try done.
    + apply lookup_insert_eq.
    + apply Contains_AddConnection.
  - intros Hin w'. subst w' r. rewrite Connect_exec by done.
    fold rem_id local_id con. cbn.
    assert (_closed (this (superseded rem_id w)) = true
            ∧ emitted (superseded rem_id w) = emitted w) as [Hc He].
    { unfold superseded.
      destruct (ConnectionTable.GetConnection rem_id (_rem_con_tab (this w)))
        as [old|]; [|done].
      pose proof (Connection_Disconnect_frame w old) as H. cbn zeta in H.
      destruct H as (? & ? & ? & ? & ? & -> & ? & ?).
      by rewrite Connection_Disconnect_exec. }
    rewrite He. split_and!; try done.
    + apply lookup_insert_eq.
    + apply Contains_AddConnection.
Qed.

Lemma handshake_ignores_closed_witness :
  let w := exec Disconnect node_dialing in
  let msg := peer_id_msg "B" in
  let r := mkRpcRequest msg (SEdge E1) in
  _closed (this w) = true ∧
  toByteArray (value msg "peer_id") ≠ "" ∧
  exec (Inquired r) w
  = with_this (set_closed true)
      (exec (Inquired r) (with_this (set_closed false) w)).
Proof.
  intros w msg r.
  assert (H1 : _closed (this w) = true) by (vm_compute; reflexivity).
  assert (H2 : toByteArray (value msg "peer_id") ≠ "")
    by (vm_compute; discriminate).
  exact (conj H1 (conj H2
           (proj1 (proj1 (handshake_ignores_closed w E1 msg H1 H2))))).
Defined.

(** ** Shutdown: [Disconnect()] *)

Lemma mark_all_marks (cs : list Connection) (m : gmap Connection ConState)
    (c : Connection) :
  c ∈ cs → mark_all cs m !! c = Some StDisconnectRequested.
Proof.
  unfold mark_all. revert m. induction cs as [|c0 cs IH]; intros m Hc.
  - by apply elem_of_nil in Hc.
  - cbn. destruct (decide (c ∈ cs)) as [Hin|Hnin]; [by apply IH|].
    apply elem_of_cons in Hc as [->|?]; [|done].
    clear IH. revert m. induction cs as [|c1 cs IH]; intros m; cbn.
    + apply lookup_insert_eq.
    + apply not_elem_of_cons in Hnin as [Hne Hnin].
      rewrite insert_insert_ne by done. by apply IH.
Qed.

Lemma torn_down_nil (w : World) : torn_down [] w w.
Proof.
  unfold torn_down. cbn. rewrite app_nil_r, (left_id_L ∅ (∪)). done.
Qed.

Lemma torn_down_one (c : Connection) (w : World) :
  torn_down [c] w (exec (Connection_Disconnect c) w).
Proof.
  pose proof (Connection_Disconnect_frame w c) as H. cbn zeta in H.
  destruct H as (? & ? & ? & ? & ? & ? & ? & ?).
  unfold torn_down. split_and!; try done;
    rewrite Connection_Disconnect_exec; cbn; try done.
  by rewrite (right_id_L ∅ (∪)).
Qed.

Lemma torn_down_app (cs1 cs2 : list Connection) (w w1 w2 : World) :
  torn_down cs1 w w1 → torn_down cs2 w1 w2 → torn_down (cs1 ++ cs2) w w2.
Proof.
  unfold torn_down, mark_all.
  intros (Ht1 & Hc1 & Hs1 & ? & ? & ? & ? & ? & ? & ? & ? & ?)
         (Ht2 & Hc2 & Hs2 & ? & ? & ? & ? & ? & ? & ? & ? & ?).
  split_and!; try congruence.
  - rewrite Ht2, Ht1, bind_app, app_assoc. done.
  - rewrite Hc2, Hc1, fmap_app, list_to_set_app_L.
    rewrite (assoc_L (∪)), (comm_L (∪) (list_to_set (_ <$> cs2))). done.
  - rewrite Hs2, Hs1, foldl_app. done.
Qed.

Lemma foreach_Disconnect (cs : list Connection) (w : World) :
  torn_down cs w (exec (foreach cs Connection_Disconnect) w).
Proof.
  revert w. induction cs as [|c cs IH]; intros w.
  - apply torn_down_nil.
  - rewrite foreach_cons. apply (torn_down_app [c] cs _ _ _ (torn_down_one c w)).
    apply IH.
Qed.

Lemma absorb_closed (e : Edge) (closed : gset Edge) :
  e ∈ closed → {[e]} ∪ closed = closed.
Proof. intros H. by apply subseteq_union_1_L, singleton_subseteq_l. Qed.

Lemma close_if_open_exec (e : Edge) (w : World) :
  exec (close_if_open e) w =
  if decide (e ∈ closed_edges w) then w
  else mkWorld (this w) ({[e]} ∪ closed_edges w) (con_states w) (next_con w)
         (trace w ++ [close_Disconnecting e]) (emitted w) (logs w).
Proof.
  unfold exec, close_if_open, Edge_IsClosed. rewrite bind_gets.
  destruct (decide (e ∈ closed_edges w)) as [Hin|Hnin].
  - rewrite bool_decide_eq_true_2 by done. by destruct w.
  - rewrite bool_decide_eq_false_2 by done. reflexivity.
Qed.

Lemma foreach_close_if_open (es : list Edge) (w : World) :
  exec (foreach es close_if_open) w =
  mkWorld (this w) (list_to_set es ∪ closed_edges w) (con_states w)
    (next_con w)
    (trace w ++ (close_Disconnecting <$> open_edges (closed_edges w) es))
    (emitted w) (logs w).
Proof.
  revert w. induction es as [|e es IH]; intros w.
  - cbn. rewrite app_nil_r, (left_id_L ∅ (∪)). by destruct w.
  - rewrite foreach_cons, IH, close_if_open_exec. clear IH.
    cbn [open_edges list_to_set].
    destruct (decide (e ∈ closed_edges w)) as [Hin|Hnin]; cbn.
    + f_equal. rewrite (comm_L (∪) {[e]}), <- (assoc_L (∪)).
      by rewrite (absorb_closed e) by done.
    + f_equal.
      * by rewrite (assoc_L (∪)), (comm_L (∪) (list_to_set es)).
      * by rewrite <- app_assoc.
Qed.

Lemma open_edges_app (closed : gset Edge) (es1 es2 : list Edge) :
  open_edges closed (es1 ++ es2) =
  open_edges closed es1 ++ open_edges (list_to_set es1 ∪ closed) es2.
Proof.
  revert closed. induction es1 as [|e es1 IH]; intros closed; cbn.
  - by rewrite (left_id_L ∅ (∪)).
  - destruct (decide (e ∈ closed)) as [Hin|Hnin].
    + rewrite IH. do 2 f_equal.
      rewrite (comm_L (∪) {[e]}), <- (assoc_L (∪)).
      by rewrite (absorb_closed e) by done.
    + cbn. rewrite IH. do 3 f_equal.
      by rewrite (assoc_L (∪)), (comm_L (∪) (list_to_set es1)).
Qed.

Lemma EdgeFactory_Stop_exec (w : World) :
  exec EdgeFactory_Stop w =
  mkWorld (on_edge_factory EdgeFactory.Stop (this w)) (closed_edges w)
    (con_states w) (next_con w)
    (trace w ++ (ListenerStop <$> EdgeFactory.to_stop (_edge_factory (this w))))
    (emitted w) (logs w).
Proof.
  unfold exec, EdgeFactory_Stop. rewrite bind_gets, bind_unit.
  generalize (EdgeFactory.to_stop (_edge_factory (this w))). intros els.
  assert (∀ w0, exec (foreach els (λ el, call (ListenerStop el))) w0 =
    mkWorld (this w0) (closed_edges w0) (con_states w0) (next_con w0)
      (trace w0 ++ (ListenerStop <$> els)) (emitted w0) (logs w0)) as ->.
  { induction els as [|el els IH]; intros w0.
    - cbn. rewrite app_nil_r. by destruct w0.
    - rewrite foreach_cons, IH. run_monad. by rewrite <- app_assoc. }
  reflexivity.
Qed.

Lemma length_zero {A} (l : list A) : bool_decide (length l = 0) = bool_decide (l = []).
Proof. apply bool_decide_ext. by destruct l. Qed.

Lemma Disconnect_exec (w : World) :
  let out := _con_tab (this w) in
  let inn := _rem_con_tab (this w) in
  let cons := visited w in
  let es1 := ConnectionTable.GetEdges out in
  let es2 := ConnectionTable.GetEdges inn in
  _closed (this w) = false →
  ∃ w3, torn_down cons (with_this (set_closed true) w) w3 ∧
    exec Disconnect w =
    exec (if bool_decide (es1 = []) && bool_decide (es2 = [])
          then emit Disconnected else skip)
      (mkWorld (on_edge_factory EdgeFactory.Stop (this w3))
         (list_to_set (es1 ++ es2) ∪ closed_edges w3)
         (con_states w3) (next_con w3)
         (trace w3 ++
            (close_Disconnecting <$> open_edges (closed_edges w3) (es1 ++ es2))
            ++ (ListenerStop <$> EdgeFactory.to_stop (_edge_factory (this w))))
         (emitted w3) (logs w3)).
Proof.
  intros out inn cons es1 es2 Hc.
  unfold exec at 1, Disconnect. rewrite bind_gets, Hc, bind_modify.
  set (w1 := with_this (set_closed true) w).
  rewrite bind_gets, bind_gets, bind_unit.
  pose proof (foreach_Disconnect (ConnectionTable.GetConnections out) w1) as T1.
  change (_con_tab (this w1)) with out.
  change (_rem_con_tab (this w1)) with inn.
  set (w2 := exec (foreach _ _) w1) in *.
  rewrite bind_gets, bind_unit.
  pose proof (foreach_Disconnect
                (ConnectionTable.GetConnections (_rem_con_tab (this w2))) w2)
    as T2.
  set (w3 := exec (foreach _ _) w2) in *.
  pose proof (torn_down_app _ _ _ _ _ T1 T2) as T.
  change (torn_down cons w1 w3) in T.
  exists w3. split; [done|].
  destruct T as (_ & _ & _ & _ & _ & _ & _ & Hf & He1 & He2 & _ & _).
  rewrite bind_gets, bind_unit, foreach_close_if_open.
  rewrite bind_gets, bind_unit, foreach_close_if_open.
  rewrite bind_unit, EdgeFactory_Stop_exec.
  cbn [this closed_edges con_states next_con trace emitted logs].
  unfold ConnectionTable.GetEdges. rewrite He1, He2, Hf.
  change (ConnectionTable.edges (_con_tab (this w1))) with es1.
  change (ConnectionTable.edges (_rem_con_tab (this w1))) with es2.
  change (_edge_factory (this w1)) with (_edge_factory (this w)).
  rewrite !length_zero.
  rewrite open_edges_app, list_to_set_app_L, fmap_app.
  rewrite (assoc_L (∪) (list_to_set es2)), (comm_L (∪) (list_to_set es2)).
  rewrite <- !app_assoc. reflexivity.
Qed.

Lemma notified_before_close (cs : list Connection) (c : Connection) :
  c ∈ cs →
  (∀ c', c' ∈ cs → Connection.GetEdge c' = Connection.GetEdge c → c' = c) →
  ∃ pre post,
    cs ≫= disconnected = pre ++ disconnected c ++ post ∧
    ∀ reason, EdgeClose (Connection.GetEdge c) reason ∉ pre.
Proof.
  intros (l1 & l2 & -> & Hfirst)%list_elem_of_split_l Hown.
  exists (l1 ≫= disconnected), (l2 ≫= disconnected). split.
  - by rewrite bind_app, bind_cons.
  - intros reason (c' & Hact & Hc')%list_elem_of_bind.
    apply Hfirst.
    assert (c' = c) as <-; [|done].
    apply Hown; [apply elem_of_app; by left|].
    unfold disconnected, local_disconnect in Hact.
    apply elem_of_cons in Hact as [?|Hact]; [done|].
    apply elem_of_cons in Hact as [?|Hact]; [done|].
    apply list_elem_of_singleton in Hact. by injection Hact as ->.
Qed.

(** A connection is in a table when one of the two maps returns it. *)
Lemma elem_of_GetConnections (c : Connection) (tab : ConnectionTable) :
  c ∈ ConnectionTable.GetConnections tab ↔
  (∃ id, ConnectionTable.id_to_con tab !! id = Some c) ∨
  (∃ e, ConnectionTable.edge_to_con tab !! e = Some c).
Proof.
  unfold ConnectionTable.GetConnections.
  rewrite elem_of_remove_dups, elem_of_app, !list_elem_of_fmap.
  split.
  - intros [([id c'] & -> & Hin)|([e c'] & -> & Hin)];
      apply elem_of_map_to_list in Hin; [left|right]; by eexists.
  - intros [[id Hid]|[e He]]; [left; exists (id, c)|right; exists (e, c)];
      (split; [done|by apply elem_of_map_to_list]).
Qed.

Lemma lookup_forget `{Countable K} (k k' : K) (con c : Connection)
    (m : gmap K Connection) :
  ConnectionTable.forget k con m !! k' = Some c → m !! k' = Some c.
Proof.
  unfold ConnectionTable.forget. case_bool_decide; [|done].
  destruct (decide (k = k')) as [->|Hne].
  - by rewrite lookup_delete_eq.
  - by rewrite lookup_delete_ne.
Qed.

Lemma forget_kept `{Countable K} (k k' : K) (con c : Connection)
    (m : gmap K Connection) :
  m !! k' = Some c → ConnectionTable.forget k con m !! k' = Some c ∨ c = con.
Proof.
  intros Hc. unfold ConnectionTable.forget. case_bool_decide as Hk; [|by left].
  destruct (decide (k = k')) as [->|Hne].
  - right. congruence.
  - left. by rewrite lookup_delete_ne.
Qed.

(** Telling connections to disconnect takes out of the peer-id map of the
    inbound table nothing but those connections. *)
Lemma foreach_Disconnect_ids (cs : list Connection) (w : World) :
  let w' := exec (foreach cs Connection_Disconnect) w in
  ∀ id c,
    (ConnectionTable.id_to_con (_rem_con_tab (this w')) !! id = Some c →
     ConnectionTable.id_to_con (_rem_con_tab (this w)) !! id = Some c) ∧
    (ConnectionTable.id_to_con (_rem_con_tab (this w)) !! id = Some c →
     ConnectionTable.id_to_con (_rem_con_tab (this w')) !! id = Some c
     ∨ c ∈ cs).
Proof.
  revert w. induction cs as [|c0 cs IH]; intros w w' id c.
  - split; [done|by left].
  - unfold w'. rewrite foreach_cons.
    destruct (IH (exec (Connection_Disconnect c0) w) id c) as [IH1 IH2].
    rewrite Connection_Disconnect_exec in IH1, IH2.
    rewrite Connection_Disconnect_exec.
    destruct (ConnectionTable.Contains c0 (_con_tab (this w)));
      cbn [this] in *; unfold on_con_tab, on_rem_con_tab in *;
      cbn [_rem_con_tab ConnectionTable.Disconnect
           ConnectionTable.id_to_con] in *.
    + split; [done|]. intros Hc. destruct (IH2 Hc); [by left|right; by right].
    + split.
      * intros Hc. by eapply lookup_forget, IH1.
      * intros Hc.
        destruct (forget_kept (Connection.GetRemoteId c0) id c0 c _ Hc)
          as [Hk| ->]; [|right; left].
        destruct (IH2 Hk); [by left|right; by right].
Qed.

(** [Disconnect()] visits exactly the connections of the two tables. *)
Lemma elem_of_visited (c : Connection) (w : World) :
  c ∈ visited w ↔
  c ∈ ConnectionTable.GetConnections (_con_tab (this w)) ∨
  c ∈ ConnectionTable.GetConnections (_rem_con_tab (this w)).
Proof.
  unfold visited. cbn zeta.
  set (w1 := with_this (set_closed true) w).
  change (_con_tab (this w1)) with (_con_tab (this w)).
  set (cons := ConnectionTable.GetConnections (_con_tab (this w))).
  pose proof (foreach_Disconnect cons w1) as T.
  pose proof (foreach_Disconnect_ids cons w1) as Hids. cbn zeta in Hids.
  set (w2 := exec (foreach cons Connection_Disconnect) w1) in *.
  destruct T as (_ & _ & _ & _ & _ & _ & _ & _ & _ & _ & _ & Hem).
  change (_rem_con_tab (this w1)) with (_rem_con_tab (this w)) in *.
  rewrite elem_of_app, !(elem_of_GetConnections c (_rem_con_tab _)), Hem.
  split.
  - intros [?|[[id Hid]|?]]; [by left| |right; by right].
    right. left. exists id. by apply Hids.
  - intros [?|[[id Hid]|?]]; [by left| |right; by right].
    destruct (proj2 (Hids id c) Hid); [right; left; by exists id|by left].
Qed.

(** C3.  The first call of [Disconnect()]: [_closed] becomes true;
    [Disconnect()] is called on every connection of the two tables
    ([CM::Disconnect] sent over it, then its edge closed); then every
    edge of the two tables that is still open is closed with the reason
    "Disconnecting"; then the listeners of the edge factory are stopped;
    and [Disconnected] is emitted before the call returns exactly when
    both tables had no edge at the call.  Every connection of the tables
    gets the notification, and gets it before the call closes its edge
    when no other connection of the tables is over the same edge. *)
Theorem Disconnect_first_call (w : World) :
  let out := _con_tab (this w) in
  let inn := _rem_con_tab (this w) in
  let cons := visited w in
  let edges := ConnectionTable.GetEdges out ++ ConnectionTable.GetEdges inn in
  let closed1 := list_to_set (Connection.GetEdge <$> cons) ∪ closed_edges w in
  let immediate := bool_decide (edges = []) in
  let w' := exec Disconnect w in
  _closed (this w) = false →
  _closed (this w') = true ∧
  (∀ c, c ∈ cons ↔
     c ∈ ConnectionTable.GetConnections out ∨
     c ∈ ConnectionTable.GetConnections inn) ∧
  trace w' = trace w ++
    (cons ≫= disconnected) ++
    (close_Disconnecting <$> open_edges closed1 edges) ++
    (ListenerStop <$> EdgeFactory.to_stop (_edge_factory (this w))) ++
    (if immediate then [Emit Disconnected] else []) ∧
  (∀ c, disconnected c =
     [ConnectionDisconnect c;
      SendNotification (method "CM::Disconnect") (SCon c);
      EdgeClose (Connection.GetEdge c) "Local disconnect request"]) ∧
  value (method "CM::Disconnect") "method" = QString "CM::Disconnect" ∧
  (immediate = true ↔ no_edges (tables w)) ∧
  emitted w' = emitted w ++
    (if immediate then [(Disconnected, tables w')] else []) ∧
  (∀ c, c ∈ cons → con_states w' !! c = Some StDisconnectRequested) ∧
  (∀ e, e ∈ edges → e ∈ closed_edges w') ∧
  EdgeFactory.stopped (_edge_factory (this w')) = true ∧
  ConnectionTable.GetEdges (_con_tab (this w')) = ConnectionTable.GetEdges out ∧
  ConnectionTable.GetEdges (_rem_con_tab (this w')) =
    ConnectionTable.GetEdges inn ∧
  (∀ c, c ∈ cons →
     (∀ c', c' ∈ cons →
        Connection.GetEdge c' = Connection.GetEdge c → c' = c) →
     ∃ pre post,
       trace w' = trace w ++ pre ++ disconnected c ++ post ∧
       ∀ reason, EdgeClose (Connection.GetEdge c) reason ∉ pre).
Proof.
  intros out inn cons edges closed1 immediate w' Hc.
  destruct (Disconnect_exec w Hc) as (w3 & T & Hexec).
  fold out inn cons in T. fold out inn in Hexec.
  destruct T as (Ht & Hce & Hcs & Hem & Hn & Hcl & Hl & Hf & He1 & He2 & _ & _).
  cbn [with_this this closed_edges con_states next_con trace emitted logs
       set_closed _closed _local_id _con_tab _rem_con_tab _edge_factory] in *.
  assert (bool_decide (ConnectionTable.GetEdges out = [])
          && bool_decide (ConnectionTable.GetEdges inn = []) = immediate)
    as Himm.
  { unfold immediate, edges.
    destruct (ConnectionTable.GetEdges out), (ConnectionTable.GetEdges inn);
      done. }
  rewrite Himm in Hexec. fold edges in Hexec.
  rewrite Hce in Hexec. fold closed1 in Hexec.
  assert (trace w' = trace w ++
    (cons ≫= disconnected) ++
    (close_Disconnecting <$> open_edges closed1 edges) ++
    (ListenerStop <$> EdgeFactory.to_stop (_edge_factory (this w))) ++
    (if immediate then [Emit Disconnected] else [])) as Htrace.
  { subst w'. rewrite Hexec.
    destruct immediate; run_monad; rewrite Ht, <- ?app_assoc;
      [done | by rewrite app_nil_r]. }
  split_and!.
  - subst w'. rewrite Hexec. destruct immediate; run_monad; done.
  - intros c. apply elem_of_visited.
  - done.
  - done.
  - reflexivity.
  - unfold immediate, edges, no_edges, tables. cbn [fst snd].
    fold out inn. rewrite bool_decide_eq_true.
    destruct (ConnectionTable.GetEdges out), (ConnectionTable.GetEdges inn);
      split; intros H; try done; by destruct H.
  - subst w'. rewrite Hexec. destruct immediate; run_monad; rewrite Hem;
      [done | by rewrite app_nil_r].
  - intros c Hin. subst w'. rewrite Hexec.
    destruct immediate; run_monad; rewrite Hcs; by apply mark_all_marks.
  - intros e Hin. subst w'. rewrite Hexec.
    destruct immediate; run_monad; apply elem_of_union_l;
      by apply elem_of_list_to_set.
  - subst w'. rewrite Hexec. destruct immediate; run_monad; done.
  - subst w'. rewrite Hexec. unfold ConnectionTable.GetEdges.
    destruct immediate; run_monad; done.
  - subst w'. rewrite Hexec. unfold ConnectionTable.GetEdges.
    destruct immediate; run_monad; done.
  - intros c Hin Hown.
    destruct (notified_before_close cons c Hin Hown)
      as (pre & post & Heq & Hpre).
    exists pre, (post ++
      (close_Disconnecting <$> open_edges closed1 edges) ++
      (ListenerStop <$> EdgeFactory.to_stop (_edge_factory (this w))) ++
      (if immediate then [Emit Disconnected] else [])).
    split; [|done]. rewrite Htrace, Heq, <- !app_assoc. done.
Qed.

Lemma Disconnect_first_call_witness :
  let w := node_two_connections in
  let w' := exec Disconnect w in
  let b := Connection.mk 0 E1 "A" "B" in
  let c := Connection.mk 1 E3 "A" "C" in
  _closed (this w) = false ∧
  visited w = [b; c] ∧
  (Connection.GetEdge b ∉ closed_edges w) ∧
  _closed (this w') = true ∧
  ∃ pre post,
    trace w' = trace w ++ pre ++ disconnected b ++ post ∧
    ∀ reason, EdgeClose (Connection.GetEdge b) reason ∉ pre.
Proof.
  intros w w' b c.
  assert (H : _closed (this w) = false) by (vm_compute; reflexivity).
  assert (Hv : visited w = [b; c]) by (vm_compute; reflexivity).
  assert (Hin : b ∈ visited w) by (rewrite Hv; left).
  assert (Hown : ∀ c', c' ∈ visited w →
            Connection.GetEdge c' = Connection.GetEdge b → c' = b).
  { rewrite Hv. intros c' [->|Hc']%elem_of_cons; [done|].
    apply list_elem_of_singleton in Hc' as ->. discriminate. }
  assert (Hopen : Connection.GetEdge b ∉ closed_edges w)
    by (apply (bool_decide_unpack _); vm_compute; exact I).
  pose proof (Disconnect_first_call w H) as T.
  refine (conj H (conj Hv (conj Hopen (conj (proj1 T) _)))).
  exact (proj2 (proj2 (proj2 (proj2 (proj2 (proj2 (proj2 (proj2 (proj2
           (proj2 (proj2 (proj2 T))))))))))) b Hin Hown).
Defined.

(** A connection is not always notified before its edge is closed: two
    connections of a table can be over one edge.  After two [CM::Connect]
    notifications with different peer ids over the inbound edge [E3],
    the inbound table returns a live connection for each id; the first
    one that [Disconnect()] visits has its edge closed, so the
    [CM::Disconnect] of the other is sent over an edge that is already
    closed. *)
Lemma Disconnect_shared_edge :
  let w := exec (run [NewEdge E3;
                      CM_Connect (mkRpcRequest (peer_id_msg "C") (SEdge E3));
                      CM_Connect (mkRpcRequest (peer_id_msg "D") (SEdge E3))])
                (ConnectionManager "A") in
  let c := Connection.mk 0 E3 "A" "C" in
  let d := Connection.mk 1 E3 "A" "D" in
  _closed (this w) = false ∧
  ConnectionTable.GetConnection "C" (_rem_con_tab (this w)) = Some c ∧
  ConnectionTable.GetConnection "D" (_rem_con_tab (this w)) = Some d ∧
  con_states w !! c = Some StLive ∧
  con_states w !! d = Some StLive ∧
  ∃ first second,
    (first = c ∧ second = d ∨ first = d ∧ second = c) ∧
    trace (exec Disconnect w) = trace w ++
      [ConnectionDisconnect first;
       SendNotification (method "CM::Disconnect") (SCon first);
       EdgeClose E3 "Local disconnect request";
       ConnectionDisconnect second;
       SendNotification (method "CM::Disconnect") (SCon second);
       EdgeClose E3 "Local disconnect request"].
Proof.
  intros w c d.
  split_and!; try (vm_compute; reflexivity).
  exists c, d. split; [by left|]. vm_compute. reflexivity.
Qed.

(** ** [Disconnected] is emitted at most once *)

Lemma quiet_modify (f : World → World) :
  (∀ w, observed (f w) = observed w) → quiet (modify f).
Proof. intros Hf w. apply Hf. Qed.

Lemma quiet_call a : is_Disconnected a = false → quiet (call a).
Proof.
  intros Ha. apply quiet_modify. intros w. unfold observed. cbn.
  by rewrite List.filter_app; cbn; rewrite Ha, app_nil_r.
Qed.

Lemma quiet_emit sig : is_Disconnected (Emit sig) = false → quiet (emit sig).
Proof.
  intros Ha. apply quiet_modify. intros w. unfold observed.
  destruct sig; [| |done]; cbn; rewrite !List.filter_app; cbn;
    by rewrite !app_nil_r.
Qed.

Lemma quiet_qlog lvl msg : quiet (qlog lvl msg).
Proof. by apply quiet_modify. Qed.

Lemma quiet_mark_closed e : quiet (mark_closed e).
Proof. by apply quiet_modify. Qed.

Lemma quiet_set_con_state con st : quiet (set_con_state con st).
Proof. by apply quiet_modify. Qed.

Lemma quiet_con_tab_do f :
  (∀ t, ConnectionTable.edges (f t) = ConnectionTable.edges t) →
  quiet (con_tab_do f).
Proof.
  intros Hf. apply quiet_modify. intros w. unfold observed. cbn. by rewrite Hf.
Qed.

Lemma quiet_rem_con_tab_do f :
  (∀ t, ConnectionTable.edges (f t) = ConnectionTable.edges t) →
  quiet (rem_con_tab_do f).
Proof.
  intros Hf. apply quiet_modify. intros w. unfold observed. cbn. by rewrite Hf.
Qed.

Create HintDb quiet.
#[local] Hint Resolve preserves_ret preserves_gets quiet_qlog
  quiet_mark_closed quiet_set_con_state : quiet.

Ltac quiet_step :=
  first
    [ apply preserves_bind; [|intros ?]
    | apply quiet_call; reflexivity
    | apply quiet_emit; reflexivity
    | apply quiet_con_tab_do; intros; reflexivity
    | apply quiet_rem_con_tab_do; intros; reflexivity
    | apply quiet_modify; intros; reflexivity
    | progress auto with quiet
    | case_match ].

Lemma quiet_Edge_Close e reason : quiet (Edge_Close e reason).
Proof. unfold Edge_Close. repeat quiet_step. Qed.

Lemma quiet_new_Connection pedge local_id rem_id :
  quiet (new_Connection pedge local_id rem_id).
Proof. unfold new_Connection. repeat quiet_step. Qed.

Lemma quiet_HandleDisconnect con : quiet (HandleDisconnect con).
Proof.
  unfold HandleDisconnect, CT_Disconnect, qDebug.
  repeat quiet_step; apply quiet_Edge_Close.
Qed.

#[local] Hint Resolve quiet_Edge_Close quiet_new_Connection
  quiet_HandleDisconnect : quiet.

Lemma quiet_AddEdgeListener el : quiet (AddEdgeListener el).
Proof. unfold AddEdgeListener, qWarning. repeat quiet_step. Qed.

Lemma quiet_ConnectTo addr : quiet (ConnectTo addr).
Proof.
  unfold ConnectTo, EdgeFactory_CreateEdgeTo, qWarning, skip.
  repeat quiet_step.
Qed.

Lemma quiet_HandleEdgeCreationFailure to reason :
  quiet (HandleEdgeCreationFailure to reason).
Proof. unfold HandleEdgeCreationFailure. repeat quiet_step. Qed.

Lemma quiet_HandleDisconnected con reason :
  quiet (HandleDisconnected con reason).
Proof. unfold HandleDisconnected, qDebug. repeat quiet_step. Qed.

Lemma quiet_Inquire request : quiet (Inquire request).
Proof. unfold Inquire. repeat quiet_step. Qed.

Lemma quiet_Inquired response : quiet (Inquired response).
Proof.
  unfold Inquired, qWarning, qDebug, qCritical. repeat quiet_step.
Qed.

Lemma quiet_Connect notification : quiet (Connect notification).
Proof.
  unfold Connect, Connection_Disconnect, qWarning, qDebug, qCritical, skip.
  repeat quiet_step.
Qed.

Lemma quiet_Close notification : quiet (Close notification).
Proof. unfold Close, qWarning. repeat quiet_step. Qed.

Lemma quiet_Disconnect_rpc notification : quiet (Disconnect_rpc notification).
Proof.
  unfold Disconnect_rpc, CT_Disconnect, qWarning, qDebug.
  repeat quiet_step.
Qed.

Lemma bind_ret {A B} (a : A) (k : A → M B) (w : World) :
  (x <- ret a ;; k x) w = k a w.
Proof. reflexivity. Qed.

Lemma HandleEdgeClose_exec (edge : Edge) (reason : string) (w : World) :
  let m := edge_removed edge (this w) in
  ∃ lg,
  exec (HandleEdgeClose edge reason) w =
  mkWorld m (closed_edges w) (con_states w) (next_con w)
    (trace w ++ if drained m then [Emit Disconnected] else [])
    (emitted w ++
       if drained m then [(Disconnected, (_con_tab m, _rem_con_tab m))] else [])
    lg.
Proof.
  destruct w as [[lid cl out inn ef] ce cs nc tr em lg].
  unfold exec, HandleEdgeClose, edge_removed, drained. rewrite bind_unit.
  destruct (Edge.Outbound edge);
    rewrite bind_assoc, bind_gets, bind_assoc, bind_unit, bind_ret, bind_unit;
    run_monad; unfold on_con_tab, on_rem_con_tab; run_monad;
    match goal with |- context [ConnectionTable.RemoveEdge ?e ?t] =>
      destruct (ConnectionTable.RemoveEdge e t) as [[] tab'] end;
    cbn [negb fst snd]; run_monad;
    (destruct cl; cbn [negb andb];
     [ rewrite ?bind_gets; run_monad; rewrite !length_zero;
       match goal with |- context [if ?b && ?c then _ else _] =>
         destruct (b && c) end; run_monad; rewrite ?app_nil_r;
       eexists; reflexivity
     | run_monad; rewrite !app_nil_r; eexists; reflexivity ]).
Qed.

Lemma remove_edge_filter_in (P : Edge → bool) (e : Edge) (l : list Edge) :
  P e = true →
  ConnectionTable.remove_edge e (List.filter P l)
  = List.filter P (ConnectionTable.remove_edge e l).
Proof.
  intros HP. induction l as [|x l IH]; [done|]. cbn.
  destruct (decide (x = e)) as [->|Hne].
  - rewrite HP. cbn. by rewrite decide_True.
  - destruct (P x) eqn:HPx; cbn; rewrite ?HPx; [|done].
    by rewrite decide_False, IH.
Qed.

Lemma remove_edge_filter_out (P : Edge → bool) (e : Edge) (l : list Edge) :
  P e = false →
  List.filter P (ConnectionTable.remove_edge e l) = List.filter P l.
Proof.
  intros HP. induction l as [|x l IH]; [done|]. cbn.
  destruct (decide (x = e)) as [->|Hne].
  - by rewrite HP.
  - cbn. by rewrite IH.
Qed.

Lemma no_outbound_no_inbound (l : list Edge) :
  outbound_of l = [] → inbound_of l = [] → l = [].
Proof.
  unfold outbound_of, inbound_of. destruct l as [|x l]; [done|]. cbn.
  by destruct (Edge.Outbound x).
Qed.

Lemma Inv_observed (env : Env) (w w' : World) :
  observed w' = observed w → Inv env w → Inv env w'.
Proof.
  unfold observed. intros Hobs [H1 H2 H3 H4 H5].
  injection Hobs as Hc Ho Hi Ht He.
  split; unfold Disconnected_count in *; by rewrite ?Hc, ?Ho, ?Hi, ?Ht, ?He.
Qed.

Lemma Inv_quiet (env : Env) (m : M unit) (w : World) :
  quiet m → Inv env w → Inv env (exec m w).
Proof. intros Hq. apply Inv_observed, Hq. Qed.

Lemma Inv_init (local_id : Id) : Inv Env0 (ConnectionManager local_id).
Proof. split; cbn; try done. by left. Qed.

Lemma no_Disconnected (l : list Action) :
  (∀ a, a ∈ l → is_Disconnected a = false) →
  List.filter is_Disconnected l = [].
Proof.
  induction l as [|a l IH]; intros H; [done|]. cbn.
  rewrite (H a) by left. apply IH. intros b Hb. apply H. by right.
Qed.

Lemma Inv_NewEdge (env : Env) (w : World) (edge : Edge) :
  Inv env w → allowed env (NewEdge edge) = true →
  Inv (env_step env (NewEdge edge)) (exec (HandleNewEdge edge) w).
Proof.
  intros [H1 H2 H3 H4 H5] Hst. cbn in Hst. apply negb_true_iff in Hst.
  assert (Disconnected_count w = 0) as Hcount
    by (destruct H4 as [?|(_ & ? & _)]; [done | congruence]).
  unfold HandleNewEdge, outbound_of, inbound_of, Disconnected_count in *.
  destruct (Edge.Outbound edge) eqn:Hout; run_monad; cbn [negb]; run_monad;
    split; cbn; rewrite ?List.filter_app; cbn; rewrite ?Hout; cbn;
    rewrite ?app_nil_r, ?H2, ?H3; try done; by left.
Qed.

Lemma Inv_Closed (env : Env) (w : World) (edge : Edge) (reason : string) :
  Inv env w → allowed env (Closed edge reason) = true →
  Inv (env_step env (Closed edge reason))
      (exec (dispatch (Closed edge reason)) w).
Proof.
  intros HI Hal. cbn in Hal. apply bool_decide_eq_true in Hal.
  unfold exec. cbn [dispatch]. rewrite bind_unit.
  apply (Inv_quiet env (mark_closed edge) w (quiet_mark_closed edge)) in HI.
  set (w1 := exec (mark_closed edge) w) in *. clearbody w1. clear w.
  destruct HI as [H1 H2 H3 H4 H5].
  assert (Disconnected_count w1 = 0) as Hcount.
  { destruct H4 as [?|(_ & _ & Hnil)]; [done|].
    rewrite Hnil in Hal. by apply elem_of_nil in Hal. }
  destruct (HandleEdgeClose_exec edge reason w1) as (lg & Hexec).
  fold (exec (HandleEdgeClose edge reason) w1). rewrite Hexec. clear Hexec.
  set (m := edge_removed edge (this w1)).
  assert (_closed m = env_stopped env
          ∧ ConnectionTable.edges (_con_tab m)
            = outbound_of (ConnectionTable.remove_edge edge (env_open env))
          ∧ ConnectionTable.edges (_rem_con_tab m)
            = inbound_of (ConnectionTable.remove_edge edge (env_open env)))
    as (Hc & Ho & Hi).
  { unfold m, edge_removed, outbound_of, inbound_of in *.
    destruct (Edge.Outbound edge) eqn:Hout; cbn; rewrite ?H2, ?H3.
    - split_and!; [done | by apply remove_edge_filter_in |].
      symmetry. apply remove_edge_filter_out. by rewrite Hout.
    - split_and!; [done | | apply remove_edge_filter_in; by rewrite Hout].
      symmetry. by apply remove_edge_filter_out. }
  unfold Disconnected_count in *.
  split; unfold Disconnected_count;
    cbn [env_step env_open env_stopped this trace emitted]; try done.
  - rewrite List.filter_app, length_app, Hcount.
    destruct (drained m) eqn:Hd; cbn; [right|by left].
    unfold drained, ConnectionTable.GetEdges in Hd.
    apply andb_true_iff in Hd as [Hd Hd3].
    apply andb_true_iff in Hd as [Hd1 Hd2].
    apply bool_decide_eq_true in Hd2, Hd3.
    split_and!; [done|congruence|].
    apply no_outbound_no_inbound; congruence.
  - rewrite List.filter_app. apply Forall_app. split; [done|].
    destruct (drained m) eqn:Hd; cbn; [|done].
    unfold drained in Hd.
    apply andb_true_iff in Hd as [Hd Hd3].
    apply andb_true_iff in Hd as [Hd1 Hd2].
    apply bool_decide_eq_true in Hd2, Hd3.
    by repeat constructor.
Qed.

Lemma Inv_Disconnect (env : Env) (w : World) :
  Inv env w → Inv (env_step env CallDisconnect) (exec Disconnect w).
Proof.
  intros HI. destruct (_closed (this w)) eqn:Hclosed.
  - (* a second call only logs *)
    assert (env_step env CallDisconnect = env) as ->.
    { destruct HI as [H1 _ _ _ _]. destruct env as [o st]. cbn in *.
      congruence. }
    assert (exec Disconnect w = exec (qWarning
      [LStr "Called Disconnect twice on ConnectionManager."]) w) as ->.
    { unfold exec, Disconnect. by rewrite bind_gets, Hclosed. }
    apply Inv_quiet; [apply quiet_qlog | done].
  - destruct HI as [H1 H2 H3 H4 H5].
    assert (Disconnected_count w = 0) as Hcount
      by (destruct H4 as [?|(_ & ? & _)]; [done | congruence]).
    destruct (Disconnect_exec w Hclosed) as (w3 & T & ->).
    destruct T as (Ht & _ & _ & Hem & _ & Hcl & _ & _ & He1 & He2 & _ & _).
    cbn [with_this this closed_edges con_states next_con trace emitted logs
         set_closed _closed _local_id _con_tab _rem_con_tab _edge_factory]
      in *.
    set (es1 := ConnectionTable.GetEdges (_con_tab (this w))) in *.
    set (es2 := ConnectionTable.GetEdges (_rem_con_tab (this w))) in *.
    assert (List.filter is_Disconnected (trace w3 ++
              (close_Disconnecting <$> open_edges (closed_edges w3) (es1 ++ es2))
              ++ (ListenerStop <$>
                    EdgeFactory.to_stop (_edge_factory (this w)))) = [])
      as Hquiet.
    { rewrite Ht, !List.filter_app.
      unfold Disconnected_count in Hcount.
      apply length_zero_iff_nil in Hcount. rewrite Hcount. cbn.
      rewrite !no_Disconnected; [done | | |].
      - by intros a (e & -> & _)%list_elem_of_fmap.
      - by intros a (e & -> & _)%list_elem_of_fmap.
      - intros a (c & Ha & _)%list_elem_of_bind.
        unfold disconnected, local_disconnect in Ha.
        apply elem_of_cons in Ha as [->|Ha]; [done|].
        apply elem_of_cons in Ha as [->|Ha]; [done|].
        by apply list_elem_of_singleton in Ha as ->. }
    destruct (bool_decide (es1 = []) && bool_decide (es2 = [])) eqn:Himm;
      run_monad.
    + apply andb_true_iff in Himm as [Hn1 Hn2].
      apply bool_decide_eq_true in Hn1, Hn2.
      split; unfold Disconnected_count; cbn; try done.
      * by rewrite He1, H2.
      * by rewrite He2, H3.
      * right. rewrite List.filter_app, Hquiet. cbn.
        split_and!; try done.
        apply no_outbound_no_inbound; by rewrite <- ?H2, <- ?H3.
      * rewrite List.filter_app, Hem. apply Forall_app. split; [done|].
        cbn. repeat constructor; cbn; unfold ConnectionTable.GetEdges;
          by rewrite ?He1, ?He2.
    + split; unfold Disconnected_count; cbn; try done.
      * by rewrite He1, H2.
      * by rewrite He2, H3.
      * left. by rewrite Hquiet.
      * by rewrite Hem.
Qed.

Lemma Inv_dispatch (env : Env) (w : World) (ev : Event) :
  Inv env w → allowed env ev = true →
  Inv (env_step env ev) (exec (dispatch ev) w).
Proof.
  intros HI Hal. destruct ev; cbn [dispatch];
    try (cbn [env_step]; apply Inv_quiet; [|done]).
  - apply quiet_AddEdgeListener.
  - apply quiet_ConnectTo.
  - by apply Inv_Disconnect.
  - by apply Inv_NewEdge.
  - apply quiet_HandleEdgeCreationFailure.
  - by apply Inv_Closed.
  - apply quiet_HandleDisconnect.
  - apply preserves_bind; [apply quiet_set_con_state|intros ?].
    apply quiet_HandleDisconnected.
  - apply quiet_Inquire.
  - apply quiet_Inquired.
  - apply quiet_Close.
  - apply quiet_Connect.
  - apply quiet_Disconnect_rpc.
Qed.

Lemma Inv_run (evs : list Event) (env : Env) (w : World) :
  Inv env w → admissible_from env evs = true →
  Inv (env_after env evs) (exec (run evs) w).
Proof.
  revert env w. induction evs as [|ev evs IH]; intros env w HI Had.
  - done.
  - cbn in Had. apply andb_true_iff in Had as [Hal Had].
    unfold run. rewrite foreach_cons. cbn [env_after foldl].
    apply IH; [|done]. by apply Inv_dispatch.
Qed.

Lemma stopped_after (evs : list Event) (env : Env) :
  env_stopped (env_after env evs) = true →
  env_stopped env = true ∨ CallDisconnect ∈ evs.
Proof.
  revert env. induction evs as [|ev evs IH]; intros env H; [by left|].
  cbn in H. apply IH in H as [H|H]; [|right; by right].
  destruct ev; cbn in H; try (by left). right; left.
Qed.

Lemma admissible_from_app (env : Env) (pre post : list Event) :
  admissible_from env (pre ++ post) = true → admissible_from env pre = true.
Proof.
  revert env. induction pre as [|ev pre IH]; intros env H; [done|].
  cbn in *. apply andb_true_iff in H as [Hal H]. rewrite Hal. cbn. by eapply IH.
Qed.

(** C4.  Along every sequence of events that respects the contract of the
    environment, from the construction of the manager on, [Disconnected]
    has been emitted at most once at every point of the sequence; if it
    has been emitted then [Disconnect()] was called before; and at each
    emission of [Disconnected] both tables were empty of edges. *)
Theorem Disconnected_at_most_once (local_id : Id) (evs : list Event) :
  admissible evs →
  ∀ pre post, evs = pre ++ post →
    let w := exec (run pre) (ConnectionManager local_id) in
    Disconnected_count w ≤ 1 ∧
    (0 < Disconnected_count w → CallDisconnect ∈ pre) ∧
    Forall (λ st, st.1 = Disconnected → no_edges st.2) (emitted w).
Proof.
  intros Had pre post -> w. unfold admissible in Had.
  apply admissible_from_app in Had.
  pose proof (Inv_run pre Env0 _ (Inv_init local_id) Had) as [_ _ _ H4 H5].
  fold w in H4, H5. split_and!.
  - destruct H4 as [->|[-> _]]; lia.
  - intros Hpos. destruct H4 as [H0|(_ & Hst & _)]; [lia|].
    apply stopped_after in Hst as [Hst|Hst]; done.
  - clear H4. induction (emitted w) as [|st l IH]; [done|].
    cbn in H5. constructor.
    + intros Hd. unfold is_Disconnected_view in H5. rewrite Hd in H5.
      by apply Forall_cons_1 in H5 as [? _].
    + apply IH. destruct (is_Disconnected_view st); [|done].
      by apply Forall_cons_1 in H5 as [_ ?].
Qed.

Lemma Disconnected_at_most_once_witness :
  let evs := [NewEdge E1; NewEdge E3; CallDisconnect;
              Closed E1 "Disconnecting"; Closed E3 "Disconnecting"] in
  let w := exec (run evs) (ConnectionManager "A") in
  admissible evs ∧
  Disconnected_count w ≤ 1 ∧
  (0 < Disconnected_count w → CallDisconnect ∈ evs) ∧
  Forall (λ st, st.1 = Disconnected → no_edges st.2) (emitted w).
Proof.
  intros evs w.
  assert (H : admissible evs) by (vm_compute; reflexivity).
  exact (conj H (Disconnected_at_most_once "A" evs H evs [] (eq_sym (app_nil_r evs)))).
Defined.

(** ** The tables stay well formed *)

Lemma elem_of_remove_edge (x e : Edge) (l : list Edge) :
  x ∈ ConnectionTable.remove_edge e l → x ∈ l.
Proof.
  induction l as [|y l IH]; cbn; [done|].
  destruct (decide (y = e)); [by right|].
  intros [->|H]%elem_of_cons; [left | right; by apply IH].
Qed.

Lemma GetEdge_Some (edge pedge : Edge) (tab : ConnectionTable) :
  ConnectionTable.GetEdge edge tab = Some pedge →
  pedge = edge ∧ edge ∈ ConnectionTable.edges tab.
Proof.
  unfold ConnectionTable.GetEdge. case_bool_decide; [|done].
  by intros [= ->].
Qed.

Lemma well_formed_shape (w w' : World) :
  shape w' = shape w → well_formed w → well_formed w'.
Proof. unfold well_formed. by intros ->. Qed.

Lemma well_formed_preserved (m : M unit) (w : World) :
  preserves shape m → well_formed w → well_formed (exec m w).
Proof. intros Hm. apply well_formed_shape, Hm. Qed.

Lemma well_formed_init (local_id : Id) :
  well_formed (ConnectionManager local_id).
Proof.
  unfold well_formed. cbn. split_and!.
  - intros e He. by apply elem_of_nil in He.
  - intros e He. by apply elem_of_nil in He.
  - intros e c. by rewrite lookup_empty.
  - intros e c. by rewrite lookup_empty.
Qed.

Ltac shape_step :=
  first
    [ apply preserves_bind; [|intros ?]
    | apply preserves_foreach; intros ?
    | apply preserves_gets
    | apply preserves_ret
    | apply preserves_modify; intros; reflexivity
    | case_match ].

Lemma shape_Connection_Disconnect con :
  preserves shape (Connection_Disconnect con).
Proof.
  unfold Connection_Disconnect, HandleDisconnect, CT_Disconnect, Edge_Close,
    qDebug, call, con_tab_do, rem_con_tab_do, set_con_state, mark_closed, qlog.
  repeat shape_step.
Qed.

Lemma well_formed_HandleNewEdge (edge : Edge) (w : World) :
  well_formed w → well_formed (exec (HandleNewEdge edge) w).
Proof.
  unfold well_formed, shape, HandleNewEdge.
  intros (H1 & H2 & H3 & H4).
  destruct (Edge.Outbound edge) eqn:Hout; run_monad; cbn [negb]; run_monad;
    cbn; split_and!; try done.
  - intros e [He| ->%list_elem_of_singleton]%elem_of_app; [by apply H1|done].
  - intros e [He| ->%list_elem_of_singleton]%elem_of_app; [by apply H2|done].
Qed.

Lemma well_formed_HandleEdgeClose (edge : Edge) (reason : string) (w : World) :
  well_formed w → well_formed (exec (HandleEdgeClose edge reason) w).
Proof.
  destruct (HandleEdgeClose_exec edge reason w) as (lg & ->).
  unfold well_formed, shape, edge_removed. intros (H1 & H2 & H3 & H4).
  destruct (Edge.Outbound edge); cbn; split_and!; try done.
  - intros e He%elem_of_remove_edge. by apply H1.
  - intros e He%elem_of_remove_edge. by apply H2.
Qed.

Lemma well_formed_HandleDisconnected (con : Connection) (reason : string)
    (w : World) :
  well_formed w → well_formed (exec (HandleDisconnected con reason) w).
Proof.
  unfold well_formed, shape, HandleDisconnected.
  intros (H1 & H2 & H3 & H4).
  destruct (Edge.Outbound (Connection.GetEdge con)); run_monad; cbn;
    split_and!; try done.
  - intros e c Hc%lookup_forget. by apply H3.
  - intros e c Hc%lookup_forget. by apply H4.
Qed.

Lemma well_formed_Inquired (response : RpcRequest) (w : World) :
  well_formed w → well_formed (exec (Inquired response) w).
Proof.
  intros WF. unfold exec, Inquired.
  destruct (as_Edge (GetFrom response)) as [edge|]; [|done].
  destruct (Edge.Outbound edge) eqn:Hout; cbn [negb]; [|done].
  destruct (isEmpty _); [done|].
  rewrite bind_gets. case_bool_decide; [done|].
  rewrite bind_gets. case_bool_decide; [done|].
  rewrite bind_gets.
  destruct (ConnectionTable.GetEdge edge (_con_tab (this w))) as [pedge|]
    eqn:Hfound; [|done].
  apply GetEdge_Some in Hfound as [-> Hin].
  run_monad. revert WF. unfold well_formed, shape. cbn.
  intros (H1 & H2 & H3 & H4). split_and!; try done.
  intros e c. destruct (decide (edge = e)) as [->|Hne].
  - rewrite lookup_insert_eq. by intros [= <-].
  - rewrite lookup_insert_ne by done. apply H3.
Qed.

Lemma well_formed_Connect (notification : RpcRequest) (w : World) :
  well_formed w → well_formed (exec (Connect notification) w).
Proof.
  intros WF. unfold exec, Connect.
  destruct (as_Edge (GetFrom notification)) as [edge|]; [|done].
  destruct (isEmpty _); [done|].
  rewrite bind_gets, bind_unit.
  match goal with |- context [exec ?m w] =>
    assert (well_formed (exec m w)) as WF1;
      [|generalize dependent (exec m w); intros w1 WF1] end.
  { apply well_formed_preserved; [|done].
    case_match; [apply shape_Connection_Disconnect | apply preserves_ret]. }
  rewrite bind_gets.
  destruct (ConnectionTable.GetEdge edge (_rem_con_tab (this w1))) as [pedge|]
    eqn:Hfound; [|done].
  apply GetEdge_Some in Hfound as [-> Hin].
  run_monad. revert WF1 Hin. unfold well_formed, shape. cbn.
  intros (H1 & H2 & H3 & H4) Hin. split_and!; try done.
  intros e c. destruct (decide (edge = e)) as [->|Hne].
  - rewrite lookup_insert_eq. intros [= <-]. split; [done|by apply H2].
  - rewrite lookup_insert_ne by done. apply H4.
Qed.

Lemma well_formed_dispatch (ev : Event) (w : World) :
  well_formed w → well_formed (exec (dispatch ev) w).
Proof.
  intros WF. destruct ev; cbn [dispatch].
  - apply well_formed_preserved; [|done].
    unfold AddEdgeListener, qWarning, qlog, call. repeat shape_step.
  - apply well_formed_preserved; [|done].
    unfold ConnectTo, EdgeFactory_CreateEdgeTo, qWarning, qlog, call, emit, skip.
    repeat shape_step.
  - apply well_formed_preserved; [|done].
    unfold Disconnect, close_if_open, EdgeFactory_Stop, Edge_IsClosed,
      Edge_Close, mark_closed, qWarning, qlog, call, emit, skip.
    repeat shape_step; apply shape_Connection_Disconnect.
  - by apply well_formed_HandleNewEdge.
  - apply well_formed_preserved; [|done].
    unfold HandleEdgeCreationFailure, emit. repeat shape_step.
  - unfold exec. rewrite bind_unit.
    apply well_formed_HandleEdgeClose.
    apply well_formed_preserved; [|done].
    unfold mark_closed. repeat shape_step.
  - apply well_formed_preserved; [|done].
    unfold HandleDisconnect, CT_Disconnect, Edge_Close, qDebug, call,
      con_tab_do, rem_con_tab_do, set_con_state, mark_closed, qlog.
    repeat shape_step.
  - unfold exec. rewrite bind_unit.
    apply well_formed_HandleDisconnected.
    apply well_formed_preserved; [|done].
    unfold set_con_state. repeat shape_step.
  - apply well_formed_preserved; [|done].
    unfold Inquire, call. repeat shape_step.
  - by apply well_formed_Inquired.
  - apply well_formed_preserved; [|done].
    unfold Close, Edge_Close, mark_closed, qWarning, qlog, call.
    repeat shape_step.
  - by apply well_formed_Connect.
  - apply well_formed_preserved; [|done].
    unfold Disconnect_rpc, CT_Disconnect, Edge_Close, qWarning, qDebug, call,
      con_tab_do, rem_con_tab_do, set_con_state, mark_closed, qlog.
    repeat shape_step.
Qed.

(** Whatever the events, the tables of the manager stay well formed. *)
Lemma reachable_well_formed (local_id : Id) (evs : list Event) :
  well_formed (exec (run evs) (ConnectionManager local_id)).
Proof.
  generalize (well_formed_init local_id).
  generalize (ConnectionManager local_id). unfold run.
  induction evs as [|ev evs IH]; intros w WF; [done|].
  rewrite foreach_cons. by apply IH, well_formed_dispatch.
Qed.

(** The contract of the environment is needed: [HandleNewEdge] adopts an
    edge handed over after shutdown, and the closing of that edge makes a
    manager that has already reported [Disconnected] report it again. *)
Example late_edge_reports_twice :
  let evs := [CallDisconnect; NewEdge E3; Closed E3 "gone"] in
  ¬ admissible evs ∧
  Disconnected_count (exec (run evs) (ConnectionManager "A")) = 2.
Proof. split; [vm_compute; discriminate | vm_compute; reflexivity]. Qed.

(** ** The scenarios of the specification *)

(** S1, basic dial. *)
Example S1_basic_dial :
  let w := exec (Inquired (mkRpcRequest (peer_id_msg "B") (SEdge E1)))
                node_dialing in
  trace w = trace node_dialing ++
    SendNotification (Connect_msg "A") (SEdge E1)
      :: con_signals (Connection.mk 0 E1 "A" "B")
      ++ [Emit (NewConnection (Connection.mk 0 E1 "A" "B") true)].
Proof. vm_compute. reflexivity. Qed.

(** S2, self-connect. *)
Example S2_self_connect :
  let w := exec (Inquired (mkRpcRequest (peer_id_msg "A") (SEdge E1)))
                node_dialing in
  trace w = trace node_dialing ++
    [SendNotification (method "CM::Close") (SEdge E1);
     EdgeClose E1 "Attempting to connect to ourself";
     Emit (ConnectionAttemptFailure mem_B "Attempting to connect to ourself")].
Proof. vm_compute. reflexivity. Qed.

(** S3, duplicate peer: the connection over [E1] stays as it is. *)
Example S3_duplicate_peer :
  let w := exec (Inquired (mkRpcRequest (peer_id_msg "B") (SEdge E2)))
                node_connected in
  trace w = trace node_connected ++
    [SendNotification (method "CM::Close") (SEdge E2);
     EdgeClose E2 "Duplicate connection";
     Emit (ConnectionAttemptFailure mem_B "Duplicate connection")] ∧
  ConnectionTable.GetConnection "B" (_con_tab (this w))
  = Some (Connection.mk 0 E1 "A" "B").
Proof. vm_compute. split; reflexivity. Qed.

(** S4, inbound promotion. *)
Example S4_inbound_promotion :
  let w := exec (run [CM_Inquire (mkRpcRequest (peer_id_msg "C") (SEdge E3));
                      CM_Connect (mkRpcRequest (peer_id_msg "C") (SEdge E3))])
                node_listening in
  trace w = trace node_listening ++
    Respond (mkRpcRequest (peer_id_msg "C") (SEdge E3)) (Inquire_response "A")
      :: con_signals (Connection.mk 0 E3 "A" "C")
      ++ [Emit (NewConnection (Connection.mk 0 E3 "A" "C") false)].
Proof. vm_compute. reflexivity. Qed.

(** S5, shutdown drain: [Disconnected] comes with the last [Closed]. *)
Example S5_shutdown_drain :
  let w1 := exec Disconnect node_two_connections in
  let w2 := exec (run [Closed E1 "x"; Closed E2 "x"]) w1 in
  let w3 := exec (run [Closed E3 "x"]) w2 in
  Disconnected_count w1 = 0 ∧ Disconnected_count w2 = 0 ∧
  Disconnected_count w3 = 1.
Proof. vm_compute. repeat split. Qed.

(** S6, shutdown when empty. *)
Example S6_shutdown_when_empty :
  let w := exec Disconnect (ConnectionManager "A") in
  trace w = trace (ConnectionManager "A") ++ [Emit Disconnected] ∧
  EdgeFactory.stopped (_edge_factory (this w)) = true.
Proof. vm_compute. split; reflexivity. Qed.

(** * Further properties of the code *)

(** ** The shutdown flag *)

Lemma Disconnect_again (w : World) :
  _closed (this w) = true →
  exec Disconnect w =
  exec (qWarning [LStr "Called Disconnect twice on ConnectionManager."]) w.
Proof. intros Hc. unfold exec, Disconnect. by rewrite bind_gets, Hc. Qed.

Lemma Disconnect_closes (w : World) : _closed (this (exec Disconnect w)) = true.
Proof.
  destruct (_closed (this w)) eqn:Hc.
  - by rewrite Disconnect_again.
  - destruct (Disconnect_exec w Hc) as (w3 & T & ->).
    destruct T as (_ & _ & _ & _ & _ & Hcl & _).
    case_match; run_monad; done.
Qed.

(** ** [Close] and the sender checks *)

(** X1.  A [CM::Close] notification from an edge closes that edge with the
    reason "Closed from remote peer", whether or not the manager has
    adopted the edge, and touches nothing else: no table, no connection,
    no signal, no message.  From any other sender it is dropped with a
    warning, and so is a [CM::Disconnect] notification whose sender is
    not a connection. *)
Theorem Close_and_Disconnect_check_sender (w : World) (n : RpcRequest) :
  match GetFrom n with
  | SEdge edge =>
      let w' := exec (Close n) w in
      trace w' = trace w ++ [EdgeClose edge "Closed from remote peer"] ∧
      closed_edges w' = {[edge]} ∪ closed_edges w ∧
      this w' = this w ∧ emitted w' = emitted w ∧
      con_states w' = con_states w ∧ next_con w' = next_con w ∧
      logs w' = logs w
  | _ => dropped w (exec (Close n) w)
  end ∧
  match GetFrom n with
  | SCon _ => True
  | _ => dropped w (exec (Disconnect_rpc n) w)
  end.
Proof.
  unfold Close, Disconnect_rpc.
  destruct (GetFrom n) as [edge|con|name]; cbn [as_Edge as_Connection];
    split; try done; try just_logged.
Qed.

(** ** Following one kind of action along the trace *)

Section Filtered.
Context {G : Type} (g : Manager → G) (p : Action → bool).

Lemma filtered_call (a : Action) :
  p a = false → preserves (filtered g p) (call a).
Proof.
  intros Ha. apply preserves_modify. intros w. unfold filtered. cbn.
  by rewrite List.filter_app; cbn; rewrite Ha, app_nil_r.
Qed.

Lemma filtered_emit (sig : Signal) :
  p (Emit sig) = false → preserves (filtered g p) (emit sig).
Proof.
  intros Ha. apply preserves_modify. intros w. unfold filtered. cbn.
  by rewrite List.filter_app; cbn; rewrite Ha, app_nil_r.
Qed.

Lemma filtered_run (evs : list Event) (w : World) :
  (∀ ev, preserves (filtered g p) (dispatch ev)) →
  filtered g p (exec (run evs) w) = filtered g p w.
Proof. intros Hd. by apply (preserves_foreach _ evs dispatch Hd w). Qed.
End Filtered.

Ltac unfold_handlers :=
  unfold AddEdgeListener, ConnectTo, Disconnect, HandleNewEdge,
    HandleEdgeCreationFailure, Inquire, Inquired, Connect, Close,
    HandleDisconnected, Disconnect_rpc, HandleEdgeClose,
    Connection_Disconnect, HandleDisconnect, CT_Disconnect, close_if_open,
    EdgeFactory_Stop, EdgeFactory_CreateEdgeTo, Edge_Close, Edge_IsClosed,
    new_Connection, con_tab_do, rem_con_tab_do, set_con_state, mark_closed,
    qWarning, qDebug, qCritical, qlog, skip.

Ltac filtered_step :=
  first
    [ apply preserves_bind; [|intros ?]
    | apply preserves_foreach; intros ?
    | apply preserves_gets
    | apply preserves_ret
    | apply filtered_call; reflexivity
    | apply filtered_emit; reflexivity
    | apply preserves_modify; intros; reflexivity
    | case_match ].

Ltac filtered_auto := unfold_handlers; solve [repeat filtered_step].

(** ** The RPC methods of the manager *)

Lemma registrations_dispatch (ev : Event) :
  preserves (filtered (λ _, tt) is_registration) (dispatch ev).
Proof. destruct ev; cbn [dispatch]; filtered_auto. Qed.

Lemma registered_filter (tr : list Action) :
  registered tr = registered (List.filter is_registration tr).
Proof.
  unfold registered. generalize (∅ : gset string).
  induction tr as [|a tr IH]; intros names; [done|].
  destruct a; cbn; apply IH.
Qed.

(** X2.  The constructor registers the four RPC methods [CM::Inquire],
    [CM::Close], [CM::Connect] and [CM::Disconnect]; no member function
    registers or unregisters anything afterwards, whatever the events;
    and the destructor unregisters those four, so that no method of the
    manager stays registered. *)
Theorem methods_registered_until_destruction (local_id : Id)
    (evs : list Event) :
  let w := exec (run evs) (ConnectionManager local_id) in
  List.filter is_registration (trace w) =
    [RpcRegister "CM::Inquire"; RpcRegister "CM::Close";
     RpcRegister "CM::Connect"; RpcRegister "CM::Disconnect"] ∧
  registered (trace w) =
    {["CM::Inquire"; "CM::Close"; "CM::Connect"; "CM::Disconnect"]} ∧
  registered (trace (exec ConnectionManager_destructor w)) = ∅.
Proof.
  intros w.
  pose proof (filtered_run (λ _, tt) is_registration evs
                (ConnectionManager local_id) registrations_dispatch) as H.
  fold w in H. injection H as H.
  assert (List.filter is_registration (trace w) =
    [RpcRegister "CM::Inquire"; RpcRegister "CM::Close";
     RpcRegister "CM::Connect"; RpcRegister "CM::Disconnect"]) as Hf by done.
  split_and!; [done| |].
  - rewrite registered_filter, Hf. vm_compute. reflexivity.
  - rewrite registered_filter. unfold ConnectionManager_destructor. run_monad.
    rewrite !List.filter_app, Hf. vm_compute. reflexivity.
Qed.

(** ** Shutdown is final *)

Lemma guarded_dispatch (ev : Event) (w : World) :
  _closed (this w) = true → guarded (exec (dispatch ev) w) = guarded w.
Proof.
  intros Hc. unfold guarded.
  destruct ev; cbn [dispatch];
    try (apply preserves_exec; filtered_auto).
  - unfold exec, AddEdgeListener. by rewrite bind_gets, Hc.
  - unfold exec, ConnectTo. by rewrite bind_gets, Hc.
  - unfold exec, Disconnect. by rewrite bind_gets, Hc.
Qed.

Lemma guarded_run (evs : list Event) (w : World) :
  _closed (this w) = true → guarded (exec (run evs) w) = guarded w.
Proof.
  unfold run. revert w. induction evs as [|ev evs IH]; intros w Hc; [done|].
  rewrite foreach_cons.
  pose proof (guarded_dispatch ev w Hc) as Hev.
  rewrite IH; [done|]. unfold guarded, filtered in Hev. injection Hev as Hev _.
  congruence.
Qed.

Lemma dials_Disconnect :
  preserves (filtered (λ _, tt) is_CreateEdgeTo) Disconnect.
Proof. filtered_auto. Qed.

(** X3.  [Disconnect()] is final.  Whatever events reach the manager after
    its first call, [_closed] stays set, the edge factory is the one the
    call left behind, no listener is asked to dial again (the call itself
    dials nothing either), and a further [Disconnect()] only logs a
    warning. *)
Theorem shutdown_is_final (w : World) (evs : list Event) :
  let w1 := exec Disconnect w in
  let w2 := exec (run evs) w1 in
  _closed (this w2) = true ∧
  _edge_factory (this w2) = _edge_factory (this w1) ∧
  List.filter is_CreateEdgeTo (trace w2) =
    List.filter is_CreateEdgeTo (trace w) ∧
  dropped w2 (exec Disconnect w2).
Proof.
  intros w1 w2.
  pose proof (Disconnect_closes w) as Hc1. fold w1 in Hc1.
  pose proof (guarded_run evs w1 Hc1) as Hg. fold w2 in Hg.
  unfold guarded, filtered in Hg. injection Hg as Hcl Hef Htr.
  pose proof (preserves_exec _ Disconnect w dials_Disconnect) as Hd.
  fold w1 in Hd. unfold filtered in Hd. injection Hd as Hd.
  assert (_closed (this w2) = true) as Hc2 by congruence.
  split_and!; [done|done|congruence|].
  rewrite (Disconnect_again w2 Hc2). unfold qWarning. just_logged.
Qed.

(** ** The inquiries *)

Lemma inquiries_dispatch (ev : Event) (w : World) :
  filtered _local_id is_SendRequest (exec (dispatch ev) w) =
  (_local_id (this w),
   List.filter is_SendRequest (trace w) ++ inquiries (_local_id (this w)) [ev]).
Proof.
  destruct ev as [| | |edge| | | | | | | | |];
    cbn [dispatch inquiries mbind list_bind];
    try (rewrite !app_nil_r;
         apply (preserves_exec (filtered _local_id is_SendRequest));
         filtered_auto).
  unfold exec, HandleNewEdge, filtered.
  destruct (Edge.Outbound edge); cbn [negb]; run_monad;
    rewrite !List.filter_app; cbn [List.filter is_SendRequest app];
    by rewrite ?app_nil_r.
Qed.

(** X4.  Along any sequence of events the requests that the manager
    sends are exactly the [CM::Inquire] requests of [HandleNewEdge]: one
    for each outbound edge handed over, in the order of arrival, each
    carrying the local id and naming [Inquired] as the callback.  No
    other member function sends a request, and an inbound edge triggers
    none. *)
Theorem one_inquiry_per_outbound_edge (w : World) (evs : list Event) :
  List.filter is_SendRequest (trace (exec (run evs) w)) =
  List.filter is_SendRequest (trace w) ++ inquiries (_local_id (this w)) evs.
Proof.
  unfold run. revert w. induction evs as [|ev evs IH]; intros w.
  - cbn. by rewrite app_nil_r.
  - rewrite foreach_cons, IH.
    pose proof (inquiries_dispatch ev w) as Hev.
    unfold filtered in Hev. injection Hev as -> ->.
    rewrite <- app_assoc. f_equal.
    change (ev :: evs) with ([ev] ++ evs).
    unfold inquiries. by rewrite bind_app.
Qed.

(** ** Handshakes over an edge the tables do not hold *)

Lemma GetEdge_unknown (edge : Edge) (tab : ConnectionTable) :
  edge ∉ ConnectionTable.GetEdges tab →
  ConnectionTable.GetEdge edge tab = None.
Proof.
  intros Hin. unfold ConnectionTable.GetEdge.
  by rewrite bool_decide_eq_false_2.
Qed.

Lemma Inquired_without_record_exec (w : World) (edge : Edge)
    (msg : QVariantMap) :
  let rem_id := toByteArray (value msg "peer_id") in
  Edge.Outbound edge = true →
  (edge ∉ ConnectionTable.GetEdges (_con_tab (this w))) →
  rem_id ≠ "" →
  rem_id ≠ _local_id (this w) →
  ConnectionTable.GetConnection rem_id (_con_tab (this w)) = None →
  exec (Inquired (mkRpcRequest msg (SEdge edge))) w =
  exec (qCritical
          [LStr "An edge attempted to create a connection, but there is no record of it";
           LSender (SEdge edge)]) w.
Proof.
  intros rem_id Hout Hin Hne Hself Hnone.
  apply GetEdge_unknown in Hin.
  unfold exec at 1, Inquired. cbn [GetFrom as_Edge GetMessage].
  rewrite Hout. fold rem_id. unfold isEmpty.
  rewrite (bool_decide_eq_false_2 (rem_id = "")) by done.
  cbn [negb]. rewrite bind_gets.
  rewrite (bool_decide_eq_false_2 _ Hself).
  rewrite bind_gets, Hnone.
  rewrite bool_decide_eq_false_2 by (intros ?; done).
  by rewrite bind_gets, Hin.
Qed.

(** X5.  [Inquired] over an outbound edge that the outbound table does not
    hold (closed in the meantime, or never adopted), with a peer id that
    passes the checks: nothing is sent, nothing is closed, no connection
    is created, no signal is emitted; the manager only logs a
    [qCritical]. *)
Theorem Inquired_without_record (w : World) (edge : Edge) (msg : QVariantMap) :
  let rem_id := toByteArray (value msg "peer_id") in
  Edge.Outbound edge = true →
  (edge ∉ ConnectionTable.GetEdges (_con_tab (this w))) →
  rem_id ≠ "" →
  rem_id ≠ _local_id (this w) →
  ConnectionTable.GetConnection rem_id (_con_tab (this w)) = None →
  reported_critical w (exec (Inquired (mkRpcRequest msg (SEdge edge))) w).
Proof.
  intros rem_id Hout Hin Hne Hself Hnone.
  rewrite Inquired_without_record_exec by done. just_logged.
Qed.

Lemma Inquired_without_record_witness :
  let w := ConnectionManager "A" in
  let msg := peer_id_msg "B" in
  Edge.Outbound E1 = true ∧
  (E1 ∉ ConnectionTable.GetEdges (_con_tab (this w))) ∧
  reported_critical w (exec (Inquired (mkRpcRequest msg (SEdge E1))) w).
Proof.
  intros w msg.
  assert (H1 : Edge.Outbound E1 = true) by reflexivity.
  assert (H2 : E1 ∉ ConnectionTable.GetEdges (_con_tab (this w)))
    by (vm_compute; apply not_elem_of_nil).
  assert (H3 : toByteArray (value msg "peer_id") ≠ "")
    by (vm_compute; discriminate).
  assert (H4 : toByteArray (value msg "peer_id") ≠ _local_id (this w))
    by (vm_compute; discriminate).
  assert (H5 : ConnectionTable.GetConnection
                 (toByteArray (value msg "peer_id")) (_con_tab (this w)) = None)
    by (vm_compute; reflexivity).
  exact (conj H1 (conj H2 (Inquired_without_record w E1 msg H1 H2 H3 H4 H5))).
Defined.

Lemma Connect_without_record_exec (w : World) (edge : Edge)
    (msg : QVariantMap) :
  let rem_id := toByteArray (value msg "peer_id") in
  edge ∉ ConnectionTable.GetEdges (_rem_con_tab (this w)) →
  rem_id ≠ "" →
  exec (Connect (mkRpcRequest msg (SEdge edge))) w =
  exec (qCritical
          [LStr "An edge attempted to create a connection, but there is no record of it";
           LSender (SEdge edge)])
       (superseded rem_id w).
Proof.
  intros rem_id Hin Hne.
  unfold exec at 1, Connect. cbn [GetFrom as_Edge GetMessage].
  fold rem_id. unfold isEmpty.
  rewrite (bool_decide_eq_false_2 _ Hne).
  rewrite bind_gets, bind_unit.
  assert (exec match ConnectionTable.GetConnection rem_id
                       (_rem_con_tab (this w)) with
               | Some old => Connection_Disconnect old
               | None => skip
               end w = superseded rem_id w) as ->.
  { unfold superseded.
    by destruct (ConnectionTable.GetConnection rem_id (_rem_con_tab (this w))). }
  assert (ConnectionTable.edges (_rem_con_tab (this (superseded rem_id w))) =
            ConnectionTable.edges (_rem_con_tab (this w))) as Hedges.
  { unfold superseded.
    destruct (ConnectionTable.GetConnection rem_id (_rem_con_tab (this w)));
      [|done].
    pose proof (Connection_Disconnect_frame w t) as H. cbn zeta in H.
    by destruct H as (? & ? & _). }
  rewrite bind_gets, GetEdge_unknown
    by (unfold ConnectionTable.GetEdges; by rewrite Hedges).
  reflexivity.
Qed.

(** X6.  [Connect] over an edge that the inbound table does not hold, with
    a non-empty peer id: no connection is allocated and none is
    announced, and a [qCritical] is logged; but the lookup of the old
    connection comes first, so a connection that the inbound table holds
    for that peer id has already been disconnected ([con->Disconnect()],
    [CM::Disconnect] sent over it, its edge closed) when the missing
    record is noticed. *)
Theorem Connect_without_record (w : World) (edge : Edge) (msg : QVariantMap) :
  let rem_id := toByteArray (value msg "peer_id") in
  let w' := exec (Connect (mkRpcRequest msg (SEdge edge))) w in
  (edge ∉ ConnectionTable.GetEdges (_rem_con_tab (this w))) →
  rem_id ≠ "" →
  reported_critical (superseded rem_id w) w' ∧
  next_con w' = next_con w ∧
  emitted w' = emitted w ∧
  match ConnectionTable.GetConnection rem_id (_rem_con_tab (this w)) with
  | Some old =>
      trace w' = trace w ++ disconnected old ∧
      con_states w' !! old = Some StDisconnectRequested ∧
      Connection.GetEdge old ∈ closed_edges w'
  | None => trace w' = trace w ∧ this w' = this w
  end.
Proof.
  intros rem_id w' Hin Hne. unfold w'.
  rewrite (Connect_without_record_exec w edge msg Hin Hne). fold rem_id.
  split; [just_logged|]. run_monad. unfold superseded.
  destruct (ConnectionTable.GetConnection rem_id (_rem_con_tab (this w)))
    as [old|]; [|done].
  rewrite Connection_Disconnect_exec. cbn. split_and!; try done.
  - apply lookup_insert_eq.
  - apply elem_of_union_l. by apply elem_of_singleton.
Qed.

Lemma Connect_without_record_witness :
  let msg := peer_id_msg "C" in
  let old := Connection.mk 1 E3 "A" "C" in
  let stray := Edge.mk 4 false mem_C in
  let w := node_two_connections in
  let w' := exec (Connect (mkRpcRequest msg (SEdge stray))) w in
  (stray ∉ ConnectionTable.GetEdges (_rem_con_tab (this w))) ∧
  toByteArray (value msg "peer_id") ≠ "" ∧
  ConnectionTable.GetConnection "C" (_rem_con_tab (this w)) = Some old ∧
  reported_critical (superseded "C" w) w' ∧
  next_con w' = next_con w ∧
  emitted w' = emitted w ∧
  match ConnectionTable.GetConnection "C" (_rem_con_tab (this w)) with
  | Some old =>
      trace w' = trace w ++ disconnected old ∧
      con_states w' !! old = Some StDisconnectRequested ∧
      Connection.GetEdge old ∈ closed_edges w'
  | None => trace w' = trace w ∧ this w' = this w
  end.
Proof.
  intros msg old stray w w'.
  assert (H1 : stray ∉ ConnectionTable.GetEdges (_rem_con_tab (this w))).
  { intros H. vm_compute in H. apply list_elem_of_singleton in H.
    discriminate. }
  assert (H2 : toByteArray (value msg "peer_id") ≠ "")
    by (vm_compute; discriminate).
  assert (H3 : ConnectionTable.GetConnection "C" (_rem_con_tab (this w))
               = Some old) by (vm_compute; reflexivity).
  exact (conj H1 (conj H2 (conj H3 (Connect_without_record w stray msg H1 H2)))).
Defined.

(** ** The closing of edges *)

Lemma remove_edge_unknown (e : Edge) (l : list Edge) :
  e ∉ l → ConnectionTable.remove_edge e l = l.
Proof.
  induction l as [|x l IH]; [done|]. intros Hin. cbn.
  apply not_elem_of_cons in Hin as [Hne Hin].
  rewrite decide_False by done. by rewrite IH.
Qed.

Lemma remove_edge_last (e : Edge) (l : list Edge) :
  e ∉ l → ConnectionTable.remove_edge e (l ++ [e]) = l.
Proof.
  induction l as [|x l IH]; intros Hin; cbn.
  - by rewrite decide_True.
  - apply not_elem_of_cons in Hin as [Hne Hin].
    rewrite decide_False by done. by rewrite IH.
Qed.

Lemma HandleEdgeClose_logs (edge : Edge) (reason : string) (w : World) :
  let tab := if Edge.Outbound edge then _con_tab (this w)
             else _rem_con_tab (this w) in
  let m := edge_removed edge (this w) in
  exec (HandleEdgeClose edge reason) w =
  mkWorld m (closed_edges w) (con_states w) (next_con w)
    (trace w ++ if drained m then [Emit Disconnected] else [])
    (emitted w ++
       if drained m then [(Disconnected, (_con_tab m, _rem_con_tab m))] else [])
    (logs w ++ (QtDebugMsg, [LStr "Edge closed: "; LSender (SEdge edge)])
       :: if bool_decide (edge ∈ ConnectionTable.GetEdges tab) then []
          else [(QtWarningMsg, [LStr "Edge closed but no Edge found in CT:";
                                LSender (SEdge edge)])]).
Proof.
  destruct w as [[lid cl out inn ef] ce cs nc tr em lg].
  unfold exec, HandleEdgeClose, edge_removed, drained. rewrite bind_unit.
  destruct (Edge.Outbound edge);
    rewrite bind_assoc, bind_gets, bind_assoc, bind_unit, bind_ret, bind_unit;
    run_monad; unfold on_con_tab, on_rem_con_tab; run_monad;
    unfold ConnectionTable.RemoveEdge, ConnectionTable.GetEdges;
    cbn [fst snd];
    match goal with |- context [bool_decide (edge ∈ ?l)] =>
      destruct (bool_decide (edge ∈ l)) end;
    cbn [negb fst snd]; run_monad;
    (destruct cl; cbn [negb andb];
     [ rewrite ?bind_gets; run_monad; rewrite !length_zero;
       match goal with |- context [if ?b && ?c then _ else _] =>
         destruct (b && c) end; run_monad; rewrite ?app_nil_r, <- ?app_assoc;
       reflexivity
     | run_monad; rewrite !app_nil_r, <- ?app_assoc; reflexivity ]).
Qed.

(** X7.  [HandleEdgeClose] for an edge that the table of its direction
    does not hold: the manager is left as it is and a warning is logged
    after the debug line; and when the manager is shut down and both
    tables are empty of edges, [Disconnected] is emitted nevertheless,
    once more for every such signal. *)
Theorem HandleEdgeClose_unknown_edge (w : World) (edge : Edge)
    (reason : string) :
  let tab := if Edge.Outbound edge then _con_tab (this w)
             else _rem_con_tab (this w) in
  let w' := exec (HandleEdgeClose edge reason) w in
  (edge ∉ ConnectionTable.GetEdges tab) →
  this w' = this w ∧ closed_edges w' = closed_edges w ∧
  con_states w' = con_states w ∧ next_con w' = next_con w ∧
  logs w' = logs w ++
    [(QtDebugMsg, [LStr "Edge closed: "; LSender (SEdge edge)]);
     (QtWarningMsg, [LStr "Edge closed but no Edge found in CT:";
                     LSender (SEdge edge)])] ∧
  trace w' = trace w ++ if drained (this w) then [Emit Disconnected] else [].
Proof.
  intros tab w' Hin. unfold w'. rewrite HandleEdgeClose_logs. fold tab.
  rewrite (bool_decide_eq_false_2 _ Hin).
  assert (edge_removed edge (this w) = this w) as ->; [|done].
  unfold edge_removed, tab, ConnectionTable.GetEdges in *.
  destruct w as [[lid cl [es ids em] [es' ids' em'] ef] ce cs nc tr em0 lg].
  destruct (Edge.Outbound edge); unfold on_con_tab, on_rem_con_tab; cbn in *;
    by rewrite remove_edge_unknown.
Qed.

Lemma HandleEdgeClose_unknown_edge_witness :
  let w := exec Disconnect (ConnectionManager "A") in
  let w' := exec (HandleEdgeClose E1 "late") w in
  (E1 ∉ ConnectionTable.GetEdges (_con_tab (this w))) ∧
  this w' = this w ∧ closed_edges w' = closed_edges w ∧
  con_states w' = con_states w ∧ next_con w' = next_con w ∧
  logs w' = logs w ++
    [(QtDebugMsg, [LStr "Edge closed: "; LSender (SEdge E1)]);
     (QtWarningMsg, [LStr "Edge closed but no Edge found in CT:";
                     LSender (SEdge E1)])] ∧
  trace w' = trace w ++ if drained (this w) then [Emit Disconnected] else [].
Proof.
  intros w w'.
  assert (H : E1 ∉ ConnectionTable.GetEdges (_con_tab (this w)))
    by (vm_compute; apply not_elem_of_nil).
  exact (conj H (HandleEdgeClose_unknown_edge w E1 "late" H)).
Defined.

Lemma HandleNewEdge_exec (edge : Edge) (w : World) :
  exec (HandleNewEdge edge) w =
  mkWorld
    (if Edge.Outbound edge
     then on_con_tab (ConnectionTable.AddEdge edge) (this w)
     else on_rem_con_tab (ConnectionTable.AddEdge edge) (this w))
    (closed_edges w) (con_states w) (next_con w)
    (trace w ++ SetSink edge RpcHandler :: subscribe_Closed edge ::
       if Edge.Outbound edge
       then [SendRequest (Inquire_msg (_local_id (this w))) (SEdge edge)
               "Inquired"]
       else [])
    (emitted w) (logs w).
Proof.
  unfold exec, HandleNewEdge.
  destruct (Edge.Outbound edge); cbn [negb]; run_monad;
    by rewrite <- !app_assoc.
Qed.

(** X8.  An edge that is adopted and then reported closed leaves the
    manager as it was before the adoption, whatever the direction of the
    edge, when the table of its direction did not hold it already; no
    warning is logged for it. *)
Theorem adopted_edge_is_released (w : World) (edge : Edge) (reason : string) :
  let tab := if Edge.Outbound edge then _con_tab (this w)
             else _rem_con_tab (this w) in
  let w1 := exec (dispatch (NewEdge edge)) w in
  let w2 := exec (dispatch (Closed edge reason)) w1 in
  (edge ∉ ConnectionTable.GetEdges tab) →
  edge ∈ ConnectionTable.GetEdges
           (if Edge.Outbound edge then _con_tab (this w1)
            else _rem_con_tab (this w1)) ∧
  this w2 = this w ∧
  logs w2 = logs w ++
    [(QtDebugMsg, [LStr "Edge closed: "; LSender (SEdge edge)])].
Proof.
  intros tab w1 w2 Hin. unfold w2, w1, exec. cbn [dispatch].
  rewrite bind_unit.
  fold (exec (HandleNewEdge edge) w). rewrite HandleNewEdge_exec.
  match goal with |- context [HandleEdgeClose edge reason ?w0] =>
    fold (exec (HandleEdgeClose edge reason) w0) end.
  rewrite HandleEdgeClose_logs.
  unfold edge_removed, tab, ConnectionTable.GetEdges in *.
  destruct w as [[lid cl [es ids em] [es' ids' em'] ef] ce cs nc tr em0 lg].
  destruct (Edge.Outbound edge); unfold on_con_tab, on_rem_con_tab; cbn in *;
    (rewrite bool_decide_eq_true_2
       by (apply elem_of_app; right; by apply list_elem_of_singleton));
    rewrite remove_edge_last by done;
    (split_and!; [apply elem_of_app; right; by apply list_elem_of_singleton
                 | done | done]).
Qed.

Lemma adopted_edge_is_released_witness :
  let w := node_connected in
  let w1 := exec (dispatch (NewEdge E3)) w in
  let w2 := exec (dispatch (Closed E3 "x")) w1 in
  (E3 ∉ ConnectionTable.GetEdges (_rem_con_tab (this w))) ∧
  E3 ∈ ConnectionTable.GetEdges (_rem_con_tab (this w1)) ∧
  this w2 = this w ∧
  logs w2 = logs w ++
    [(QtDebugMsg, [LStr "Edge closed: "; LSender (SEdge E3)])].
Proof.
  intros w w1 w2.
  assert (H : E3 ∉ ConnectionTable.GetEdges (_rem_con_tab (this w)))
    by (vm_compute; apply not_elem_of_nil).
  exact (conj H (adopted_edge_is_released w E3 "x" H)).
Defined.

(** ** The life of a connection *)

Lemma forget_inserted `{Countable K} (k : K) (con : Connection)
    (m : gmap K Connection) :
  m !! k = None → ConnectionTable.forget k con (<[k := con]> m) = m.
Proof.
  intros Hk. unfold ConnectionTable.forget.
  rewrite lookup_insert_eq, bool_decide_eq_true_2 by done.
  by apply delete_insert_id.
Qed.

Lemma forget_absent `{Countable K} (k : K) (con : Connection)
    (m : gmap K Connection) :
  m !! k = None → ConnectionTable.forget k con m = m.
Proof.
  intros Hk. unfold ConnectionTable.forget.
  by rewrite Hk, bool_decide_eq_false_2.
Qed.

Lemma exec_seq {B} (m : M unit) (k : M B) (w : World) :
  exec (m ;; k) w = exec k (exec m w).
Proof. unfold exec at 1. by rewrite bind_unit. Qed.

Lemma HandleDisconnected_exec (con : Connection) (reason : string) (w : World) :
  exec (HandleDisconnected con reason) w =
  mkWorld
    (if Edge.Outbound (Connection.GetEdge con)
     then on_con_tab (ConnectionTable.RemoveConnection con) (this w)
     else on_rem_con_tab (ConnectionTable.RemoveConnection con) (this w))
    (closed_edges w) (con_states w) (next_con w) (trace w) (emitted w)
    (logs w ++ [(QtDebugMsg,
       [LStr "Edge disconnected now removing Connection: ";
        LSender (SCon con); LStr ", because: "; LStr reason])]).
Proof.
  unfold exec, HandleDisconnected.
  destruct (Edge.Outbound (Connection.GetEdge con)); run_monad; reflexivity.
Qed.

(** X9.  The whole life of an outbound connection leaves nothing behind
    in the manager.  An outbound edge new to the manager is adopted, the
    answer to the inquiry promotes it to a connection, the connection is
    torn down (by the local [Disconnect()] of the connection or by a
    [CM::Disconnect] of the peer), reports [Disconnected], and the edge
    reports [Closed]: afterwards the manager, tables included, is the
    one before the adoption; the connection is in its terminal state and
    the edge closed. *)
Theorem outbound_connection_life (w : World) (edge : Edge)
    (msg dmsg : QVariantMap) (r1 r2 : string) (teardown : Event) :
  let rem_id := toByteArray (value msg "peer_id") in
  let local_id := _local_id (this w) in
  let con := Connection.mk (next_con w) edge local_id rem_id in
  Edge.Outbound edge = true →
  (edge ∉ ConnectionTable.GetEdges (_con_tab (this w))) →
  ConnectionTable.GetConnectionFor edge (_con_tab (this w)) = None →
  ConnectionTable.GetConnectionFor edge (_rem_con_tab (this w)) = None →
  rem_id ≠ "" →
  rem_id ≠ local_id →
  ConnectionTable.GetConnection rem_id (_con_tab (this w)) = None →
  teardown ∈ [CalledDisconnect con;
              CM_Disconnect (mkRpcRequest dmsg (SCon con))] →
  let w' := exec (run [NewEdge edge;
                       CM_Inquired (mkRpcRequest msg (SEdge edge));
                       teardown;
                       ConDisconnected con r1;
                       Closed edge r2]) w in
  this w' = this w ∧
  con_states w' !! con = Some StDisconnected ∧
  edge ∈ closed_edges w' ∧
  List.filter is_NewConnection (trace w') =
    List.filter is_NewConnection (trace w) ++ [Emit (NewConnection con true)].
Proof.
  intros rem_id local_id con Hout Hnew Hfor Hfor' Hne Hself Hnone Htd w'.
  unfold w', run. rewrite !foreach_cons. cbn [dispatch].
  rewrite HandleNewEdge_exec, Hout.
  rewrite Inquired_new_connection; cbn; fold rem_id local_id con; try done.
  2:{ apply elem_of_app. right. by apply list_elem_of_singleton. }
  match goal with |- context [exec (dispatch teardown) ?w0] =>
    set (w2 := w0) end.
  assert (this (exec (dispatch teardown) w2)
            = on_con_tab (ConnectionTable.Disconnect con) (this w2)
          ∧ closed_edges (exec (dispatch teardown) w2)
            = {[edge]} ∪ closed_edges w
          ∧ con_states (exec (dispatch teardown) w2)
            = <[con := StDisconnectRequested]> (con_states w2)
          ∧ List.filter is_NewConnection (trace (exec (dispatch teardown) w2))
            = List.filter is_NewConnection (trace w2))
    as (Hthis & Hce & Hcs & Htr).
  { assert (ConnectionTable.Contains con (_con_tab (this w2)) = true) as Hin
      by apply Contains_AddConnection.
    assert (ConnectionTable.Contains con (_rem_con_tab (this w2)) = false)
      as Hnin.
    { unfold ConnectionTable.Contains. apply bool_decide_eq_false_2.
      unfold ConnectionTable.GetConnectionFor in Hfor'. cbn.
      by rewrite Hfor'. }
    apply elem_of_cons in Htd as [->|Htd];
      [|apply list_elem_of_singleton in Htd as ->]; cbn [dispatch].
    - rewrite HandleDisconnect_exec, Hin. cbn.
      by rewrite !List.filter_app, !app_nil_r.
    - rewrite Disconnect_rpc_exec, Hnin. cbn.
      by rewrite !List.filter_app, !app_nil_r. }
  generalize dependent (exec (dispatch teardown) w2). intros w3 Hthis Hce Hcs Htr.
  rewrite !exec_seq, HandleEdgeClose_logs, HandleDisconnected_exec.
  cbn [this closed_edges con_states next_con trace emitted logs
       mark_closed set_con_state exec modify snd Connection.GetEdge con].
  rewrite ?Hout, ?Hthis, ?Hce.
  split_and!.
  - unfold w2, edge_removed. rewrite Hout. clear -Hnew Hfor Hnone.
    unfold con, local_id, ConnectionTable.GetEdges,
      ConnectionTable.GetConnectionFor, ConnectionTable.GetConnection in *.
    destruct w as [[lid cl [es ids em] inn ef] ce cs nc tr em0 lg].
    unfold on_con_tab, ConnectionTable.RemoveEdge,
      ConnectionTable.RemoveConnection, ConnectionTable.Disconnect,
      ConnectionTable.AddConnection, ConnectionTable.AddEdge.
    cbn in *.
    rewrite forget_inserted by done.
    rewrite forget_absent by done.
    rewrite forget_inserted by done.
    by rewrite remove_edge_last.
  - apply lookup_insert_eq.
  - apply elem_of_union_l. by apply elem_of_singleton.
  - rewrite List.filter_app, Htr. unfold w2. cbn [trace].
    rewrite !List.filter_app. cbn. rewrite app_nil_r.
    by destruct (drained _); cbn; rewrite app_nil_r.
Qed.

Lemma outbound_connection_life_witness :
  let w := ConnectionManager "A" in
  let msg := peer_id_msg "B" in
  let con := Connection.mk 0 E1 "A" "B" in
  let teardown := CM_Disconnect (mkRpcRequest ∅ (SCon con)) in
  let w' := exec (run [NewEdge E1; CM_Inquired (mkRpcRequest msg (SEdge E1));
                       teardown; ConDisconnected con "bye";
                       Closed E1 "Remote disconnect"]) w in
  Edge.Outbound E1 = true ∧
  (E1 ∉ ConnectionTable.GetEdges (_con_tab (this w))) ∧
  this w' = this w ∧
  con_states w' !! con = Some StDisconnected ∧
  E1 ∈ closed_edges w' ∧
  List.filter is_NewConnection (trace w') =
    List.filter is_NewConnection (trace w) ++ [Emit (NewConnection con true)].
Proof.
  intros w msg con teardown w'.
  assert (H1 : Edge.Outbound E1 = true) by reflexivity.
  assert (H2 : E1 ∉ ConnectionTable.GetEdges (_con_tab (this w)))
    by (vm_compute; apply not_elem_of_nil).
  assert (H3 : ConnectionTable.GetConnectionFor E1 (_con_tab (this w)) = None)
    by reflexivity.
  assert (H4 : ConnectionTable.GetConnectionFor E1 (_rem_con_tab (this w))
               = None) by reflexivity.
  assert (H5 : toByteArray (value msg "peer_id") ≠ "")
    by (vm_compute; discriminate).
  assert (H6 : toByteArray (value msg "peer_id") ≠ _local_id (this w))
    by (vm_compute; discriminate).
  assert (H7 : ConnectionTable.GetConnection
                 (toByteArray (value msg "peer_id")) (_con_tab (this w)) = None)
    by reflexivity.
  assert (H8 : teardown ∈ [CalledDisconnect con; teardown])
    by (right; left).
  exact (conj H1 (conj H2
    (outbound_connection_life w E1 msg ∅ "bye" "Remote disconnect" teardown
       H1 H2 H3 H4 H5 H6 H7 H8))).
Defined.

(** ** What the tables hold, whatever the events *)

Lemma ids_within_refl (w : World) : ids_within w w.
Proof. by split. Qed.

Lemma ids_within_trans (w1 w2 w3 : World) :
  ids_within w1 w2 → ids_within w2 w3 → ids_within w1 w3.
Proof. intros [H1 H2] [H3 H4]. split; intros id c Hc; auto. Qed.

Lemma ids_ok_within (w w' : World) :
  ids_within w w' → ids_ok w → ids_ok w'.
Proof. intros [H1 H2] [H3 H4]. split; intros id c Hc; auto. Qed.

Lemma forgets_ret {A} (a : A) : forgets (ret a).
Proof. intros w. apply ids_within_refl. Qed.

Lemma forgets_gets {A} (f : World → A) : forgets (gets f).
Proof. intros w. apply ids_within_refl. Qed.

Lemma forgets_modify (f : World → World) :
  (∀ w, ids_within w (f w)) → forgets (modify f).
Proof. intros Hf w. apply Hf. Qed.

Lemma forgets_bind {A B} (m : M A) (k : A → M B) :
  forgets m → (∀ a, forgets (k a)) → forgets (bind m k).
Proof.
  intros Hm Hk w. unfold bind. specialize (Hm w).
  destruct (m w) as [a w1]. cbn in *.
  eapply ids_within_trans; [done|apply Hk].
Qed.

Lemma forgets_foreach {A} (l : list A) (body : A → M unit) :
  (∀ x, forgets (body x)) → forgets (foreach l body).
Proof.
  intros Hb. induction l as [|x l IH]; cbn [foreach].
  - apply forgets_ret.
  - by apply forgets_bind.
Qed.

Ltac forgets_step :=
  first
    [ apply forgets_bind; [|intros ?]
    | apply forgets_foreach; intros ?
    | apply forgets_gets
    | apply forgets_ret
    | apply forgets_modify; intros ?; split; intros ? ?; cbn;
      first [done | apply lookup_forget]
    | case_match ].

Ltac forgets_auto := unfold_handlers; solve [repeat forgets_step].

Lemma ids_ok_forgets (m : M unit) (w : World) :
  forgets m → ids_ok w → ids_ok (exec m w).
Proof. intros Hm. apply ids_ok_within, Hm. Qed.

Lemma ids_ok_init (local_id : Id) : ids_ok (ConnectionManager local_id).
Proof. split; intros id c; cbn; by rewrite lookup_empty. Qed.

Lemma ids_ok_HandleEdgeClose (edge : Edge) (reason : string) (w : World) :
  ids_ok w → ids_ok (exec (HandleEdgeClose edge reason) w).
Proof.
  destruct (HandleEdgeClose_exec edge reason w) as (lg & ->).
  unfold ids_ok, edge_removed.
  destruct (Edge.Outbound edge); cbn; done.
Qed.

Lemma ids_ok_Inquired (response : RpcRequest) (w : World) :
  ids_ok w → ids_ok (exec (Inquired response) w).
Proof.
  intros Hok. unfold exec, Inquired.
  destruct (as_Edge (GetFrom response)) as [edge|]; [|done].
  destruct (Edge.Outbound edge) eqn:Hout; cbn [negb]; [|done].
  destruct (isEmpty _); [done|].
  rewrite bind_gets. case_bool_decide; [done|].
  rewrite bind_gets. case_bool_decide; [done|].
  rewrite bind_gets.
  destruct (ConnectionTable.GetEdge edge (_con_tab (this w))) as [pedge|]
    eqn:Hfound; [|done].
  apply GetEdge_Some in Hfound as [-> Hin].
  run_monad. destruct Hok as [H1 H2]. split; cbn; [|done].
  intros id c.
  match goal with |- <[?k := _]> _ !! _ = _ → _ =>
    destruct (decide (k = id)) as [<-|Hne] end.
  - rewrite lookup_insert_eq. by intros [= <-].
  - rewrite lookup_insert_ne by done. apply H1.
Qed.

Lemma ids_ok_Connect (notification : RpcRequest) (w : World) :
  well_formed w → ids_ok w → ids_ok (exec (Connect notification) w).
Proof.
  intros WF Hok. unfold exec, Connect.
  destruct (as_Edge (GetFrom notification)) as [edge|]; [|done].
  destruct (isEmpty _); [done|].
  rewrite bind_gets, bind_unit.
  match goal with |- context [exec ?m w] =>
    assert (well_formed (exec m w) ∧ ids_ok (exec m w)) as [WF1 Hok1];
      [|generalize dependent (exec m w); intros w1 WF1 Hok1] end.
  { split.
    - apply well_formed_preserved; [|done].
      case_match; [apply shape_Connection_Disconnect | apply preserves_ret].
    - apply ids_ok_forgets; [|done].
      case_match; [forgets_auto | apply forgets_ret]. }
  rewrite bind_gets.
  destruct (ConnectionTable.GetEdge edge (_rem_con_tab (this w1))) as [pedge|]
    eqn:Hfound; [|done].
  apply GetEdge_Some in Hfound as [-> Hin].
  destruct WF1 as (_ & Hinb & _ & _). apply Hinb in Hin.
  run_monad. destruct Hok1 as [H1 H2]. split; cbn; [done|].
  intros id c.
  match goal with |- <[?k := _]> _ !! _ = _ → _ =>
    destruct (decide (k = id)) as [<-|Hne] end.
  - rewrite lookup_insert_eq. by intros [= <-].
  - rewrite lookup_insert_ne by done. apply H2.
Qed.

Lemma ids_ok_dispatch (ev : Event) (w : World) :
  well_formed w → ids_ok w → ids_ok (exec (dispatch ev) w).
Proof.
  intros WF Hok.
  destruct ev; cbn [dispatch];
    try (apply ids_ok_forgets; [forgets_auto | done]).
  - rewrite exec_seq. apply ids_ok_HandleEdgeClose.
    apply ids_ok_forgets; [forgets_auto | done].
  - by apply ids_ok_Inquired.
  - by apply ids_ok_Connect.
Qed.

Lemma reachable_ids_ok (local_id : Id) (evs : list Event) :
  ids_ok (exec (run evs) (ConnectionManager local_id)).
Proof.
  assert (well_formed (ConnectionManager local_id)
          ∧ ids_ok (ConnectionManager local_id)) as H0
    by (split; [apply well_formed_init | apply ids_ok_init]).
  revert H0. generalize (ConnectionManager local_id). unfold run.
  induction evs as [|ev evs IH]; intros w [WF Hok]; [done|].
  rewrite foreach_cons. apply IH. split.
  - by apply well_formed_dispatch.
  - by apply ids_ok_dispatch.
Qed.

(** X10.  Whatever events reach a manager after its construction, the
    outbound table holds outbound edges only and the inbound table
    inbound edges only; every connection of a table, whether the peer-id
    map or the edge map returns it, is over an edge of the direction of
    the table; the peer-id map returns for an id only a connection with
    that remote id, and the edge map returns for an edge only a
    connection over that edge. *)
Theorem tables_keep_their_direction (local_id : Id) (evs : list Event) :
  let w := exec (run evs) (ConnectionManager local_id) in
  let out := _con_tab (this w) in
  let inn := _rem_con_tab (this w) in
  (∀ e, e ∈ ConnectionTable.GetEdges out → Edge.Outbound e = true) ∧
  (∀ e, e ∈ ConnectionTable.GetEdges inn → Edge.Outbound e = false) ∧
  (∀ c, c ∈ ConnectionTable.GetConnections out →
     Edge.Outbound (Connection.GetEdge c) = true) ∧
  (∀ c, c ∈ ConnectionTable.GetConnections inn →
     Edge.Outbound (Connection.GetEdge c) = false) ∧
  (∀ tab id c, tab ∈ [out; inn] →
     ConnectionTable.GetConnection id tab = Some c →
     Connection.GetRemoteId c = id) ∧
  (∀ tab e c, tab ∈ [out; inn] →
     ConnectionTable.GetConnectionFor e tab = Some c →
     Connection.GetEdge c = e).
Proof.
  intros w out inn.
  pose proof (reachable_well_formed local_id evs) as WF. fold w in WF.
  pose proof (reachable_ids_ok local_id evs) as [I1 I2]. fold w in I1, I2.
  unfold well_formed, shape in WF. fold out inn in WF, I1, I2.
  destruct WF as (H1 & H2 & H3 & H4).
  unfold ConnectionTable.GetConnection, ConnectionTable.GetConnectionFor.
  split_and!; try done.
  - intros c [[id Hid]|[e He]]%elem_of_GetConnections.
    + by destruct (I1 _ _ Hid).
    + by destruct (H3 _ _ He) as [-> ?].
  - intros c [[id Hid]|[e He]]%elem_of_GetConnections.
    + by destruct (I2 _ _ Hid).
    + by destruct (H4 _ _ He) as [-> ?].
  - intros tab id c [->|Htab]%elem_of_cons Hc;
      [|apply list_elem_of_singleton in Htab as ->].
    + by destruct (I1 _ _ Hc).
    + by destruct (I2 _ _ Hc).
  - intros tab e c [->|Htab]%elem_of_cons Hc;
      [|apply list_elem_of_singleton in Htab as ->].
    + by destruct (H3 _ _ Hc).
    + by destruct (H4 _ _ Hc).
Qed.

(** ** What is announced, whatever the events *)

Lemma announced_filter (local_id : Id) (tr : list Action) :
  Forall (announced_ok local_id) (List.filter is_NewConnection tr) →
  Forall (announced_ok local_id) tr.
Proof.
  induction tr as [|a tr IH]; [done|]. cbn.
  destruct (is_NewConnection a) eqn:Ha.
  - intros [? ?]%Forall_cons_1. constructor; [done|by apply IH].
  - intros H. constructor; [|by apply IH].
    destruct a; try done. by destruct sig.
Qed.

Lemma filter_announced (local_id : Id) (tr : list Action) :
  Forall (announced_ok local_id) tr →
  Forall (announced_ok local_id) (List.filter is_NewConnection tr).
Proof.
  induction tr as [|a tr IH]; [done|]. cbn.
  intros [? ?]%Forall_cons_1.
  destruct (is_NewConnection a); [constructor; [done|]|]; by apply IH.
Qed.

Lemma sound_preserved (local_id : Id) (m : M unit) (w : World) :
  preserves (filtered _local_id is_NewConnection) m →
  sound local_id w → sound local_id (exec m w).
Proof.
  intros Hm [Hid Htr]. specialize (Hm w). unfold filtered in Hm.
  injection Hm as Hid' Htr'. unfold exec. split; [by rewrite Hid'|].
  apply announced_filter. rewrite Htr'.
  by apply filter_announced.
Qed.

Ltac announced :=
  unfold sound; run_monad; split; [done|];
  rewrite ?Forall_app; split_and?; try done;
  apply Forall_singleton; cbn [announced_ok]; try done.

Lemma sound_Inquired (local_id : Id) (response : RpcRequest) (w : World) :
  sound local_id w → sound local_id (exec (Inquired response) w).
Proof.
  intros [Hid Htr]. unfold sound, exec, Inquired.
  destruct (as_Edge (GetFrom response)) as [edge|]; [|by announced].
  destruct (Edge.Outbound edge) eqn:Hout; cbn [negb]; [|by announced].
  cbn zeta. unfold isEmpty. case_bool_decide as Hne; [by announced|].
  rewrite bind_gets. case_bool_decide as Hself; [by announced|].
  rewrite bind_gets. case_bool_decide; [by announced|].
  rewrite bind_gets.
  destruct (ConnectionTable.GetEdge edge (_con_tab (this w))) as [pedge|]
    eqn:Hfound; [|by announced].
  apply GetEdge_Some in Hfound as [-> Hin].
  announced. cbn. split_and!; congruence.
Qed.

Lemma sound_Connect (local_id : Id) (notification : RpcRequest) (w : World) :
  well_formed w → sound local_id w →
  sound local_id (exec (Connect notification) w).
Proof.
  intros WF Hs. unfold exec, Connect.
  destruct (as_Edge (GetFrom notification)) as [edge|];
    [|destruct Hs; by announced].
  cbn zeta. unfold isEmpty.
  case_bool_decide as Hne; [destruct Hs; by announced|].
  rewrite bind_gets, bind_unit.
  match goal with |- context [exec ?m w] =>
    assert (well_formed (exec m w) ∧ sound local_id (exec m w)) as [WF1 Hs1];
      [|generalize dependent (exec m w); intros w1 WF1 Hs1] end.
  { split.
    - apply well_formed_preserved; [|done].
      case_match; [apply shape_Connection_Disconnect | apply preserves_ret].
    - apply sound_preserved; [|done].
      case_match; [filtered_auto | apply preserves_ret]. }
  destruct Hs1 as [Hid1 Htr1].
  rewrite bind_gets.
  destruct (ConnectionTable.GetEdge edge (_rem_con_tab (this w1))) as [pedge|]
    eqn:Hfound; [|by announced].
  apply GetEdge_Some in Hfound as [-> Hin].
  destruct WF1 as (_ & Hinb & _ & _). apply Hinb in Hin.
  by announced.
Qed.

Lemma sound_dispatch (local_id : Id) (ev : Event) (w : World) :
  well_formed w → sound local_id w → sound local_id (exec (dispatch ev) w).
Proof.
  intros WF Hs.
  destruct ev; cbn [dispatch];
    try (apply sound_preserved; [filtered_auto | done]).
  - by apply sound_Inquired.
  - by apply sound_Connect.
Qed.

(** X11.  Whatever events reach a manager after its construction, every
    [NewConnection(con, local)] it has emitted announces a connection
    whose edge has the direction the flag tells ([local] for an outbound
    edge), whose local id is the id of the manager and whose remote id is
    not empty; and a connection announced as local is never to the
    manager itself. *)
Theorem announced_connections (local_id : Id) (evs : list Event)
    (con : Connection) (local : bool) :
  let w := exec (run evs) (ConnectionManager local_id) in
  Emit (NewConnection con local) ∈ trace w →
  Edge.Outbound (Connection.GetEdge con) = local ∧
  Connection.GetLocalId con = local_id ∧
  Connection.GetRemoteId con ≠ "" ∧
  (local = true → Connection.GetRemoteId con ≠ local_id).
Proof.
  intros w Hin.
  assert (well_formed w ∧ sound local_id w) as [_ [_ Hs]].
  { unfold w, run. clear Hin w.
    assert (well_formed (ConnectionManager local_id)
            ∧ sound local_id (ConnectionManager local_id)) as H0.
    { split; [apply well_formed_init|]. split; [done|].
      cbn. repeat constructor. }
    revert H0. generalize (ConnectionManager local_id).
    induction evs as [|ev evs IH]; intros w [WF Hs]; [done|].
    rewrite foreach_cons. apply IH. split.
    - by apply well_formed_dispatch.
    - by apply sound_dispatch. }
  rewrite Forall_forall in Hs. apply (Hs _ Hin).
Qed.

Lemma announced_connections_witness :
  let evs := [NewEdge E3;
              CM_Connect (mkRpcRequest (peer_id_msg "C") (SEdge E3))] in
  let con := Connection.mk 0 E3 "A" "C" in
  Emit (NewConnection con false)
    ∈ trace (exec (run evs) (ConnectionManager "A")) ∧
  Edge.Outbound (Connection.GetEdge con) = false ∧
  Connection.GetLocalId con = "A" ∧
  Connection.GetRemoteId con ≠ "" ∧
  (false = true → Connection.GetRemoteId con ≠ "A").
Proof.
  intros evs con.
  assert (H : Emit (NewConnection con false)
                ∈ trace (exec (run evs) (ConnectionManager "A"))).
  { vm_compute. do 8 right. left. }
  exact (conj H (announced_connections "A" evs con false H)).
Defined.

(** ** [Disconnected] is reported when the manager is drained *)

Lemma observed_drained (w w' : World) :
  observed w' = observed w →
  drained (this w') = drained (this w) ∧
  Disconnected_count w' = Disconnected_count w.
Proof.
  unfold observed, drained, Disconnected_count, ConnectionTable.GetEdges.
  intros Hobs. injection Hobs as -> -> -> -> _. done.
Qed.

Lemma Disconnected_counted (tr : list Action) :
  1 ≤ length (List.filter is_Disconnected (tr ++ [Emit Disconnected])).
Proof. rewrite List.filter_app, length_app. cbn. lia. Qed.

Lemma reported_dispatch (ev : Event) (w : World) :
  (drained (this w) = true → 1 ≤ Disconnected_count w) →
  drained (this (exec (dispatch ev) w)) = true →
  1 ≤ Disconnected_count (exec (dispatch ev) w).
Proof.
  intros Hw.
  assert (∀ m : M unit, quiet m →
    drained (this (exec m w)) = true → 1 ≤ Disconnected_count (exec m w))
    as Hquiet.
  { intros m Hm.
    destruct (observed_drained w (exec m w) (Hm w)) as [-> ->]. done. }
  destruct ev; cbn [dispatch].
  - apply Hquiet, quiet_AddEdgeListener.
  - apply Hquiet, quiet_ConnectTo.
  - destruct (_closed (this w)) eqn:Hclosed.
    + rewrite (Disconnect_again w Hclosed). apply Hquiet, quiet_qlog.
    + destruct (Disconnect_exec w Hclosed) as (w3 & T & ->).
      destruct T as (_ & _ & _ & _ & _ & _ & _ & _ & He1 & He2 & _ & _).
      cbn [with_this this set_closed _con_tab _rem_con_tab] in He1, He2.
      destruct (bool_decide _ && bool_decide _) eqn:Hb; run_monad.
      * intros _. apply Disconnected_counted.
      * unfold drained, ConnectionTable.GetEdges in *. cbn.
        rewrite He1, He2, <- andb_assoc, Hb, andb_false_r. done.
  - rewrite HandleNewEdge_exec. unfold drained, ConnectionTable.GetEdges.
    destruct (Edge.Outbound edge); cbn;
      rewrite (bool_decide_eq_false_2 (_ ++ [edge] = []))
        by (by intros [? ?]%app_eq_nil);
      rewrite ?andb_false_r; done.
  - apply Hquiet, quiet_HandleEdgeCreationFailure.
  - rewrite exec_seq.
    destruct (HandleEdgeClose_exec edge reason (exec (mark_closed edge) w))
      as (lg & ->).
    cbn [this trace Disconnected_count]. intros ->.
    unfold Disconnected_count. cbn [trace]. apply Disconnected_counted.
  - apply Hquiet, quiet_HandleDisconnect.
  - apply Hquiet.
    apply preserves_bind; [apply quiet_set_con_state|intros ?].
    apply quiet_HandleDisconnected.
  - apply Hquiet, quiet_Inquire.
  - apply Hquiet, quiet_Inquired.
  - apply Hquiet, quiet_Close.
  - apply Hquiet, quiet_Connect.
  - apply Hquiet, quiet_Disconnect_rpc.
Qed.

Lemma reported_run (evs : list Event) (w : World) :
  (drained (this w) = true → 1 ≤ Disconnected_count w) →
  drained (this (exec (run evs) w)) = true →
  1 ≤ Disconnected_count (exec (run evs) w).
Proof.
  unfold run. revert w. induction evs as [|ev evs IH]; intros w Hw; [done|].
  rewrite foreach_cons. by apply IH, reported_dispatch.
Qed.

(** X12.  A manager that is shut down and whose tables are empty of edges
    has emitted [Disconnected], whatever the events that led there.
    When the events respect the contract of the environment,
    [Disconnected] has been emitted exactly once if the manager is shut
    down with both tables empty of edges, and not at all otherwise. *)
Theorem Disconnected_when_drained (local_id : Id) (evs : list Event) :
  let w := exec (run evs) (ConnectionManager local_id) in
  (drained (this w) = true → 1 ≤ Disconnected_count w) ∧
  (admissible evs →
   Disconnected_count w = if drained (this w) then 1 else 0).
Proof.
  intros w.
  assert (drained (this w) = true → 1 ≤ Disconnected_count w) as Hrep
    by (by apply reported_run).
  split; [done|]. intros Had.
  pose proof (Inv_run evs Env0 _ (Inv_init local_id) Had) as [H1 H2 H3 H4 _].
  fold w in H1, H2, H3, H4.
  destruct (drained (this w)) eqn:Hd.
  - specialize (Hrep eq_refl). destruct H4 as [?|[? _]]; [lia|done].
  - destruct H4 as [?|(_ & Hst & Hopen)]; [done|]. exfalso.
    unfold drained, ConnectionTable.GetEdges in Hd.
    rewrite H1, H2, H3, Hst, Hopen in Hd. done.
Qed.

Lemma Disconnected_when_drained_witness :
  let evs := [NewEdge E1; NewEdge E3; CallDisconnect;
              Closed E1 "Disconnecting"; Closed E3 "Disconnecting"] in
  let w := exec (run evs) (ConnectionManager "A") in
  drained (this w) = true ∧ admissible evs ∧
  1 ≤ Disconnected_count w ∧
  Disconnected_count w = if drained (this w) then 1 else 0.
Proof.
  intros evs w.
  assert (H1 : drained (this w) = true) by (vm_compute; reflexivity).
  assert (H2 : admissible evs) by (vm_compute; reflexivity).
  exact (conj H1 (conj H2
    (conj (proj1 (Disconnected_when_drained "A" evs) H1)
          (proj2 (Disconnected_when_drained "A" evs) H2)))).
Defined.

(** ** The identity and the shutdown flag *)

Lemma identity_dispatch (ev : Event) :
  preserves (filtered _local_id (λ _, false)) (dispatch ev).
Proof. destruct ev; cbn [dispatch]; filtered_auto. Qed.

Lemma flag_dispatch (ev : Event) :
  ev ≠ CallDisconnect →
  preserves (filtered _closed (λ _, false)) (dispatch ev).
Proof. destruct ev; cbn [dispatch]; try done; intros _; filtered_auto. Qed.

Lemma closed_run (evs : list Event) (w : World) :
  _closed (this (exec (run evs) w)) = true ↔
  _closed (this w) = true ∨ CallDisconnect ∈ evs.
Proof.
  unfold run. revert w. induction evs as [|ev evs IH]; intros w.
  - cbn. split; [by left|]. intros [?|H]; [done|]. by apply elem_of_nil in H.
  - rewrite foreach_cons, IH, elem_of_cons.
    assert (ev = CallDisconnect ∨ ev ≠ CallDisconnect) as [->|Hne]
      by (destruct ev; (by left) || (by right)).
    + cbn [dispatch]. rewrite Disconnect_closes. split; [|by left].
      intros _. right. by left.
    + pose proof (flag_dispatch ev Hne w) as Hev.
      unfold filtered in Hev. injection Hev as Hev. unfold exec. rewrite Hev.
      split; [intros [?|?]; [by left|by right; right]|].
      intros [?|[?|?]]; [by left|done|by right].
Qed.

(** X13.  The manager keeps the id it was constructed with, and its
    shutdown flag is set by [Disconnect()] and by nothing else: after any
    sequence of events [_closed] holds exactly when [Disconnect()] was
    called. *)
Theorem closed_iff_Disconnect_called (local_id : Id) (evs : list Event) :
  let w := exec (run evs) (ConnectionManager local_id) in
  _local_id (this w) = local_id ∧
  (_closed (this w) = true ↔ CallDisconnect ∈ evs).
Proof.
  intros w. split.
  - pose proof (filtered_run _local_id (λ _, false) evs
                  (ConnectionManager local_id) identity_dispatch) as H.
    fold w in H. unfold filtered in H. by injection H as H.
  - unfold w. rewrite closed_run. cbn. split; [by intros [?|?]|by right].
Qed.

(** ** An answer that comes after the edge is gone *)

Lemma NoDup_remove_edge (e : Edge) (l : list Edge) :
  NoDup l → e ∉ ConnectionTable.remove_edge e l.
Proof.
  induction 1 as [|x l Hx Hl IH]; cbn; [apply not_elem_of_nil|].
  destruct (decide (x = e)) as [->|Hne]; [done|].
  apply not_elem_of_cons. split; [done|apply IH].
Qed.

(** X14.  When an outbound edge has reported [Closed] before the answer
    to its inquiry arrives, the answer creates no connection: with the
    edge held once by the outbound table before the closing, [Inquired]
    after [HandleEdgeClose] sends nothing, emits nothing and only logs a
    [qCritical], even for a peer id that passes every check. *)
Theorem Inquired_after_edge_closed (w : World) (edge : Edge)
    (msg : QVariantMap) (reason : string) :
  let rem_id := toByteArray (value msg "peer_id") in
  let w1 := exec (HandleEdgeClose edge reason) w in
  Edge.Outbound edge = true →
  NoDup (ConnectionTable.GetEdges (_con_tab (this w))) →
  rem_id ≠ "" →
  rem_id ≠ _local_id (this w) →
  ConnectionTable.GetConnection rem_id (_con_tab (this w)) = None →
  reported_critical w1 (exec (Inquired (mkRpcRequest msg (SEdge edge))) w1).
Proof.
  intros rem_id w1 Hout Hnd Hne Hself Hnone.
  assert (this w1 = edge_removed edge (this w)) as Hthis.
  { unfold w1. by destruct (HandleEdgeClose_exec edge reason w) as (lg & ->). }
  unfold edge_removed in Hthis. rewrite Hout in Hthis.
  rewrite Inquired_without_record_exec; [just_logged|done|..];
    rewrite ?Hthis; unfold on_con_tab; cbn; try done.
  by apply NoDup_remove_edge.
Qed.

Lemma Inquired_after_edge_closed_witness :
  let msg := peer_id_msg "B" in
  let w1 := exec (HandleEdgeClose E1 "timeout") node_dialing in
  Edge.Outbound E1 = true ∧
  NoDup (ConnectionTable.GetEdges (_con_tab (this node_dialing))) ∧
  E1 ∈ ConnectionTable.GetEdges (_con_tab (this node_dialing)) ∧
  reported_critical w1 (exec (Inquired (mkRpcRequest msg (SEdge E1))) w1).
Proof.
  intros msg w1.
  assert (H1 : Edge.Outbound E1 = true) by reflexivity.
  assert (H2 : NoDup (ConnectionTable.GetEdges (_con_tab (this node_dialing))))
    by (vm_compute; apply NoDup_singleton).
  assert (H3 : toByteArray (value msg "peer_id") ≠ "")
    by (vm_compute; discriminate).
  assert (H4 : toByteArray (value msg "peer_id")
               ≠ _local_id (this node_dialing))
    by (vm_compute; discriminate).
  assert (H5 : ConnectionTable.GetConnection
                 (toByteArray (value msg "peer_id"))
                 (_con_tab (this node_dialing)) = None)
    by (vm_compute; reflexivity).
  assert (H6 : E1 ∈ ConnectionTable.GetEdges (_con_tab (this node_dialing)))
    by (vm_compute; left).
  exact (conj H1 (conj H2 (conj H6
    (Inquired_after_edge_closed node_dialing E1 msg "timeout"
       H1 H2 H3 H4 H5)))).
Defined.
